(** * GeoJSON Dashboard: the validation, repair and duplicate pipeline

    A shallow embedding of [app.py] and [kafka_integration.py].

    - The geometry library (Shapely/GEOS) is an interface, the class
      [Shapely]: the script only calls [is_valid], [explain_validity], [wkt]
      and [buffer(0)] on geometry values and compares them for equality.
    - A GeoDataFrame is the list of its rows; a column that a branch of the
      script adds later ([geometry_fixed], [valid_fixed]) is an optional
      cell of the row. Attribute columns other than the geometry are carried
      along unchanged by every step and are left out.
    - What the script shows ([st.*]), logs ([logger.*], [logging.*]) and
      draws is an output trace; a call that may raise returns an [exc].
    - Every feature of the batch carries a geometry object, and the
      library's calls on it return. On a feature without a geometry
      [parallel_validate] raises, and GEOS may throw inside [buffer(0)]:
      such a run ends in the [except] branch like one whose map cannot be
      drawn. These runs are outside the model: nothing below says that a
      run past the read can only fail at the map.
    - Clock readings and the elapsed time, floats in the source, are
      integers here; nothing is computed from them but their difference.
    - Static headings are left out. The version history and the comment
      box do not touch the frame: they are the session state, modelled on
      its own after the script. *)

From stdpp Require Import base list strings gmap relations.
From Stdlib Require Import ZArith Lia.

(** ** Python exceptions and the script monad *)

Inductive exn := Exception (msg : string).

Inductive exc (A : Type) := Return (a : A) | Raise (e : exn).
Arguments Return {A} a.
Arguments Raise {A} e.

(** ** concurrent.futures.ThreadPoolExecutor.map

    [executor.map(fn, iterable)] submits one task per element, in order, and
    hands back an iterator that reads the futures in submission order; each
    read waits for its future.  Workers complete tasks in any order. *)

Module Executor.

Record pool (B : Type) := Pool {
  futures : list (option B);   (* one future per submitted task; None = still running *)
  collected : list B           (* what list(...) has read so far *)
}.
Arguments Pool {B} futures collected.
Arguments futures {B} p.
Arguments collected {B} p.

Section executor.
Context {A B : Type} (fn : A → B).

(** All tasks submitted, none finished, nothing read yet. *)
Definition submitted (args : list A) : pool B :=
  Pool (replicate (length args) None) [].

Inductive step (args : list A) : pool B → pool B → Prop :=
| step_complete i a fs out :
    (* some worker finishes the task of position i *)
    fs !! i = Some None →
    args !! i = Some a →
    step args (Pool fs out) (Pool (<[i := Some (fn a)]> fs) out)
| step_collect b fs out :
    (* the iterator reads the next future, which must be done *)
    fs !! length out = Some (Some b) →
    step args (Pool fs out) (Pool fs (out ++ [b])).

(** The iterator is exhausted: [list(...)] returns [collected]. *)
Definition drained (args : list A) (p : pool B) : Prop :=
  length (collected p) = length args.

(** One run under a given completion order: the workers finish the
    tasks named by [order], then the iterator reads what it can. *)
Definition complete (args : list A) (fs : list (option B)) (i : nat) : list (option B) :=
  match fs !! i, args !! i with
  | Some None, Some a => <[i := Some (fn a)]> fs
  | _, _ => fs
  end.

Fixpoint collect (fs : list (option B)) : list B :=
  match fs with
  | Some b :: fs' => b :: collect fs'
  | _ => []
  end.

Definition run (args : list A) (order : list nat) : list B :=
  collect (foldl (complete args) (replicate (length args) None) order).

(** The value [list(executor.map(fn, args))] evaluates to. *)
Definition map (args : list A) : list B := fn <$> args.

(** Every finished future holds the value of its own task. *)
Definition agrees (args : list A) (fs : list (option B)) : Prop :=
  length fs = length args ∧
  ∀ j b, fs !! j = Some (Some b) → fn <$> args !! j = Some b.

(** What holds of every state the pool can reach. *)
Definition pool_inv (args : list A) (p : pool B) : Prop :=
  agrees args (futures p) ∧
  collected p = fn <$> take (length (collected p)) args.
End executor.

End Executor.

(** ** pandas: boolean indexing, head, duplicated *)

Module Pandas.

(** [df[mask]] *)
Fixpoint bool_index {A} (df : list A) (mask : list bool) : list A :=
  match df, mask with
  | r :: df', b :: mask' =>
      if b then r :: bool_index df' mask' else bool_index df' mask'
  | _, _ => []
  end.

(** [df.empty] *)
Definition empty {A} (df : list A) : bool :=
  match df with [] => true | _ => false end.

(** [df.head(n)] *)
Definition head {A} (n : nat) (df : list A) : list A := take n df.
Arguments head : simpl never.

Section duplicated.
Context `{Countable K}.

(** [duplicated(values, keep=False)]: one pass with a hash table from a
    value to the position of its first occurrence; a value met again
    marks both that position and the current one. *)
Fixpoint duplicated_loop (values : list K) (i : nat)
    (table : gmap K nat) (out : list bool) : list bool :=
  match values with
  | [] => out
  | value :: rest =>
      match table !! value with
      | Some k =>
          duplicated_loop rest (S i) table (<[i := true]> (<[k := true]> out))
      | None =>
          duplicated_loop rest (S i) (<[value := i]> table) (<[i := false]> out)
      end
  end.

Definition duplicated (values : list K) : list bool :=
  duplicated_loop values 0 ∅ (replicate (length values) false).

(** Position [j] holds a value that some other position holds too. *)
Definition repeated (values : list K) (j : nat) : Prop :=
  ∃ j' v, j' ≠ j ∧ values !! j = Some v ∧ values !! j' = Some v.

(** The state of the loop once the values of [pre] have been read:
    the table knows a position of every value read, and [out] flags the
    positions whose value was read twice. *)
Definition loop_inv (pre : list K) (table : gmap K nat) (out : list bool) : Prop :=
  (∀ v k, table !! v = Some k → pre !! k = Some v) ∧
  (∀ v, table !! v = None → v ∉ pre) ∧
  (∀ j, j < length pre →
     ∃ b, out !! j = Some b ∧ (b = true ↔ repeated pre j)).
End duplicated.

End Pandas.

(** ** The geometry library *)

Inductive GeomType :=
  | Point | LineString | LinearRing | Polygon
  | MultiPoint | MultiLineString | MultiPolygon | GeometryCollection.

(** What the script uses of a Shapely geometry.  Equality of geometry
    values is structural (same type, same ordered coordinates): it is the
    equality [duplicated] hashes and compares with. *)
Class Shapely (Geom : Type) := {
  geom_eq_dec :: EqDecision Geom;
  geom_countable :: Countable Geom;
  is_valid : Geom → bool;               (* geom.is_valid *)
  explain_validity : Geom → string;     (* shapely.validation.explain_validity *)
  wkt : Geom → string;                  (* geom.wkt *)
  buffer : Geom → Z → Geom;             (* geom.buffer(distance) *)
  geom_type : Geom → GeomType;          (* geom.geom_type *)
  is_empty : Geom → bool                (* geom.is_empty *)
}.

(** Point and LineString have no area. *)
Definition non_areal (t : GeomType) : bool :=
  match t with Point | LineString => true | _ => false end.

(** ** Data of the script *)

(** The dict [parallel_validate] returns. *)
Record Verdict := {
  v_valid : bool;
  v_issue : option string;
  v_wkt : string
}.

(** A row of [gdf]. [index] is the label the row got when the file was
    read; [geometry] is the active geometry column. *)
Record Row (Geom : Type) := {
  index : nat;
  geometry : Geom;
  valid : bool;
  issue : option string;
  geometry_fixed : option Geom;
  valid_fixed : option bool
}.
Arguments index {Geom} r.
Arguments geometry {Geom} r.
Arguments valid {Geom} r.
Arguments issue {Geom} r.
Arguments geometry_fixed {Geom} r.
Arguments valid_fixed {Geom} r.

(** The dict published to Kafka. *)
Record Event := {
  filename : string;
  timestamp : string;
  processing_time : Z;
  total_features : nat
}.

(** A KafkaProducer, by what its two calls do. *)
Record Producer := {
  send : string → Event → exc unit;
  flush : exc unit
}.

(** The texts the two files show and log, with the values they
    interpolate. *)
Inductive Message :=
  | FileLoaded                      (* GeoJSON file loaded successfully. *)
  | DetectedInvalid (n : nat)       (* Detected {n} invalid geometries. *)
  | AllFixed                        (* All geometries successfully fixed using buffer(0). *)
  | RemainInvalid (n : nat)         (* {n} geometries remain invalid after fix attempt. *)
  | AllValid                        (* All geometries are valid. *)
  | DetectedDuplicates (n : nat)    (* Detected {n} duplicate geometries. *)
  | NoDuplicates                    (* No duplicate geometries detected. *)
  | Visualized                      (* Geometries visualized successfully! *)
  | NoValidToVisualize              (* No valid geometries to visualize. *)
  | ProcessingTime (t : Z)          (* Processing time: {t:.2f} seconds *)
  | ErrorProcessing (e : exn)       (* Error processing GeoJSON file: {e} *)
  | ProducerInitialized             (* Kafka producer initialized successfully. *)
  | ErrorInitializing (e : exn)     (* Error initializing Kafka producer: {e} *)
  | ProducerNotInitialized          (* Kafka producer is not initialized. *)
  | EventSent (event : Event)       (* Kafka event sent: {event} *)
  | ErrorSending (e : exn).         (* Error sending Kafka event: {e} *)

Inductive Level := Info | Success | Warning | Error.

(** The tables handed to [st.dataframe]. *)
Inductive Table (Geom : Type) :=
  | Preview (labels : list nat)                  (* gdf.drop(columns='geometry') *)
  | Issues (rows : list (nat * option string))   (* invalid_geometries[['issue']] *)
  | Geometries (rows : list (nat * Geom))        (* still_invalid[['geometry']] *)
  | Attributes (rows : list (nat * bool * option string * option bool)).
                                                 (* duplicate_geometries.drop(columns='geometry') *)
Arguments Preview {Geom} labels.
Arguments Issues {Geom} rows.
Arguments Geometries {Geom} rows.
Arguments Attributes {Geom} rows.

Inductive Out (Geom : Type) :=
  | St (level : Level) (m : Message)       (* st.info, st.success, st.warning, st.error *)
  | Dataframe (t : Table Geom)             (* st.dataframe *)
  | Folium (overlay : list Geom)           (* st_folium(m, ...) with the GeoJson overlay *)
  | Logger (level : Level) (m : Message)   (* loguru: logger.info, .warning, .error, .exception *)
  | Logging (level : Level) (m : Message). (* logging.info, logging.error *)
Arguments St {Geom} level m.
Arguments Dataframe {Geom} t.
Arguments Folium {Geom} overlay.
Arguments Logger {Geom} level m.
Arguments Logging {Geom} level m.

(** The uploaded file: its name and what [gpd.read_file] makes of it. *)
Record Upload (Geom : Type) := {
  name : string;
  read_file : exc (list Geom)
}.
Arguments name {Geom} u.
Arguments read_file {Geom} u.

(** What the run reads from outside the frame. *)
Record Env (Geom : Type) := {
  time_start : Z;                        (* time.time() at line 59 *)
  time_end : Z;                          (* time.time() at line 156 *)
  now : string;                          (* datetime.now().isoformat() at line 183 *)
  render_map : list Geom → exc unit      (* lines 141-147: centroid, folium.Map, GeoJson, st_folium *)
}.
Arguments time_start {Geom} e.
Arguments time_end {Geom} e.
Arguments now {Geom} e.
Arguments render_map {Geom} e.

(** The variables of the validation and repair block (lines 76-120). *)
Record Repaired (Geom : Type) := {
  rp_gdf : list (Row Geom);                     (* gdf when the block ends *)
  rp_invalid_geometries : list (Row Geom);
  rp_fixed : option (list (Row Geom));          (* gdf after line 102, when the branch ran *)
  rp_still_invalid : option (list (Row Geom))
}.
Arguments rp_gdf {Geom} r.
Arguments rp_invalid_geometries {Geom} r.
Arguments rp_fixed {Geom} r.
Arguments rp_still_invalid {Geom} r.

(** The variables of the script when it ends. *)
Record Vars (Geom : Type) := {
  gdf : list (Row Geom);
  repaired : Repaired Geom;
  duplicates : list bool;
  duplicate_geometries : list (Row Geom);
  event : Event
}.
Arguments gdf {Geom} v.
Arguments repaired {Geom} v.
Arguments duplicates {Geom} v.
Arguments duplicate_geometries {Geom} v.
Arguments event {Geom} v.

(** ** The two source files *)

Section script.
Context `{Shapely Geom}.

(** A computation of the script: what it showed and logged, and the
    value it returned or the exception it raised. *)
Definition M (A : Type) : Type := (list (Out Geom) * exc A)%type.

#[local] Instance M_ret : MRet M := λ A a, ([], Return a).
#[local] Instance M_bind : MBind M := λ A B f m,
  match m with
  | (o, Return a) => let '(o', r) := f a in (o ++ o', r)
  | (o, Raise e) => (o, Raise e)
  end.

Definition tell (o : Out Geom) : M unit := ([o], Return tt).
Definition call {A} (r : exc A) : M A := ([], r).

(** [try: body except Exception as e: handler(e)] *)
Definition try_except {A} (body : M A) (handler : exn → M A) : M A :=
  match body with
  | (o, Raise e) => let '(o', r) := handler e in (o ++ o', r)
  | (o, Return a) => (o, Return a)
  end.

(** What a computation showed and logged, and how it ended. *)
Definition output {A} (m : M A) : list (Out Geom) := m.1.
Definition outcome {A} (m : M A) : exc A := m.2.

(** The frame a repair block ends with (empty had it raised). *)
Definition rp_gdf_of (m : M (Repaired Geom)) : list (Row Geom) :=
  match outcome m with Return rp => rp_gdf rp | Raise _ => [] end.

(** *** kafka_integration.py *)

(** [connect] is what the constructor [KafkaProducer(...)] does. *)
Definition get_kafka_producer (connect : exc Producer) : M (option Producer) :=
  try_except
    (producer ← call connect;
     tell (Logging Info ProducerInitialized);;
     mret (Some producer))
    (λ e, tell (Logging Error (ErrorInitializing e));;
          mret None).

Definition send_kafka_event (producer : option Producer) (topic : string)
    (event : Event) : M unit :=
  match producer with
  | None => tell (Logging Error ProducerNotInitialized)
  | Some producer =>
      try_except
        (call (send producer topic event);;
         call (flush producer);;
         tell (Logging Info (EventSent event)))
        (λ e, tell (Logging Error (ErrorSending e)))
  end.

(** *** app.py *)

Definition parallel_validate (geom : Geom) : Verdict :=
  {| v_valid := is_valid geom;
     v_issue := if is_valid geom then None else Some (explain_validity geom);
     v_wkt := wkt geom |}.

(** [gdf['valid'] = ...; gdf['issue'] = ...] on the frame as read, whose
    rows are labelled 0, 1, ...  Both lists have one entry per row. *)
Definition assign_validation (geoms : list Geom) (valid_col : list bool)
    (issue_col : list (option string)) : list (Row Geom) :=
  imap (λ i '(g, (v, s)),
          {| index := i; geometry := g; valid := v; issue := s;
             geometry_fixed := None; valid_fixed := None |})
       (zip geoms (zip valid_col issue_col)).

(** Lines 79-86. *)
Definition validate (geoms : list Geom) : list (Row Geom) :=
  let results := Executor.map parallel_validate geoms in
  assign_validation geoms (v_valid <$> results) (v_issue <$> results).

(** [gdf['geometry_fixed'] = gdf.geometry.buffer(0)] *)
Definition assign_geometry_fixed (gdf : list (Row Geom)) : list (Row Geom) :=
  (λ r, {| index := index r; geometry := geometry r; valid := valid r;
           issue := issue r;
           geometry_fixed := Some (buffer (geometry r) 0);
           valid_fixed := valid_fixed r |}) <$> gdf.

(** [gdf['valid_fixed'] = gdf['geometry_fixed'].apply(lambda g: g.is_valid)] *)
Definition assign_valid_fixed (gdf : list (Row Geom)) : list (Row Geom) :=
  (λ r, {| index := index r; geometry := geometry r; valid := valid r;
           issue := issue r;
           geometry_fixed := geometry_fixed r;
           valid_fixed := is_valid <$> geometry_fixed r |}) <$> gdf.

(** [gdf.set_geometry('geometry_fixed', inplace=True, drop=True)]: the
    column is deleted and its values become the geometry column.  The
    script calls it only on frames that have the column (line 100). *)
Definition set_geometry_fixed (gdf : list (Row Geom)) : list (Row Geom) :=
  (λ r, match geometry_fixed r with
        | Some g =>
            {| index := index r; geometry := g; valid := valid r;
               issue := issue r; geometry_fixed := None;
               valid_fixed := valid_fixed r |}
        | None => r
        end) <$> gdf.

(** Lines 88-120. *)
Definition repair (gdf : list (Row Geom)) : M (Repaired Geom) :=
  let invalid_geometries := filter (λ r, valid r = false) gdf in
  if negb (Pandas.empty invalid_geometries) then
    tell (St Warning (DetectedInvalid (length invalid_geometries)));;
    tell (Logger Warning (DetectedInvalid (length invalid_geometries)));;
    tell (Dataframe (Issues
      (Pandas.head 10 ((λ r, (index r, issue r)) <$> invalid_geometries))));;
    let gdf := assign_geometry_fixed gdf in
    let gdf := assign_valid_fixed gdf in
    let fixed := gdf in
    let still_invalid := filter (λ r, valid_fixed r = Some false) gdf in
    if Pandas.empty still_invalid then
      tell (St Success AllFixed);;
      let gdf := set_geometry_fixed gdf in
      mret {| rp_gdf := gdf; rp_invalid_geometries := invalid_geometries;
              rp_fixed := Some fixed; rp_still_invalid := Some still_invalid |}
    else
      tell (St Error (RemainInvalid (length still_invalid)));;
      tell (Logger Error (RemainInvalid (length still_invalid)));;
      tell (Dataframe (Geometries
        (Pandas.head 10 ((λ r, (index r, geometry r)) <$> still_invalid))));;
      let gdf := filter (λ r, valid_fixed r = Some true) gdf in
      let gdf := set_geometry_fixed gdf in
      mret {| rp_gdf := gdf; rp_invalid_geometries := invalid_geometries;
              rp_fixed := Some fixed; rp_still_invalid := Some still_invalid |}
  else
    tell (St Success AllValid);;
    tell (Logger Info AllValid);;
    mret {| rp_gdf := gdf; rp_invalid_geometries := invalid_geometries;
            rp_fixed := None; rp_still_invalid := None |}.

(** Lines 122-135. *)
Definition detect_duplicates (gdf : list (Row Geom))
    : M (list bool * list (Row Geom)) :=
  let duplicates := Pandas.duplicated (geometry <$> gdf) in
  let duplicate_geometries := Pandas.bool_index gdf duplicates in
  (if negb (Pandas.empty duplicate_geometries) then
     tell (St Warning (DetectedDuplicates (length duplicate_geometries)));;
     tell (Logger Warning (DetectedDuplicates (length duplicate_geometries)));;
     tell (Dataframe (Attributes (Pandas.head 10
       ((λ r, (index r, valid r, issue r, valid_fixed r)) <$> duplicate_geometries))))
   else
     tell (St Success NoDuplicates);;
     tell (Logger Info NoDuplicates));;
  mret (duplicates, duplicate_geometries).

(** Lines 137-153. *)
Definition visualize (env : Env Geom) (gdf : list (Row Geom)) : M unit :=
  if negb (Pandas.empty gdf) then
    call (render_map env (geometry <$> gdf));;
    tell (Folium (geometry <$> gdf));;
    tell (St Success Visualized);;
    tell (Logger Info Visualized)
  else
    tell (St Error NoValidToVisualize);;
    tell (Logger Error NoValidToVisualize).

(** The body of the [try] after the file is read (lines 64-188). *)
Definition process (env : Env Geom) (producer : option Producer)
    (file_name : string) (geoms : list Geom) : M (Vars Geom) :=
  tell (Logger Info FileLoaded);;
  tell (Dataframe (Preview (Pandas.head 10 (seq 0 (length geoms)))));;
  let gdf := validate geoms in
  rp ← repair gdf;
  let gdf := rp_gdf rp in
  '(duplicates, duplicate_geometries) ← detect_duplicates gdf;
  visualize env gdf;;
  let processing_time := (time_end env - time_start env)%Z in
  tell (St Info (ProcessingTime processing_time));;
  let event := {| filename := file_name; timestamp := now env;
                  processing_time := processing_time;
                  total_features := length gdf |} in
  send_kafka_event producer "geojson_upload_events" event;;
  mret {| gdf := gdf; repaired := rp; duplicates := duplicates;
          duplicate_geometries := duplicate_geometries; event := event |}.

(** [if file: try: ... except Exception as e: ...] *)
Definition main (env : Env Geom) (producer : option Producer)
    (file : option (Upload Geom)) : M (option (Vars Geom)) :=
  match file with
  | Some file =>
      try_except
        (geoms ← call (read_file file);
         vars ← process env producer (name file) geoms;
         mret (Some vars))
        (λ e, tell (St Error (ErrorProcessing e));;
              tell (Logger Error (ErrorProcessing e));;
              mret None)
  | None => mret None
  end.

(** The script from its first statement: line 15 builds the producer,
    then the upload, if there is one, is processed. *)
Definition app (connect : exc Producer) (env : Env Geom)
    (file : option (Upload Geom)) : M (option (Vars Geom)) :=
  producer ← get_kafka_producer connect;
  main env producer file.
End script.

(** ** The rows the script builds, one record at a time *)

Section rows.
Context `{Shapely Geom}.

(** Record [i] of the batch after lines 79-86. *)
Definition validated (i : nat) (g : Geom) : Row Geom :=
  {| index := i; geometry := g; valid := is_valid g;
     issue := v_issue (parallel_validate g);
     geometry_fixed := None; valid_fixed := None |}.

(** A row after lines 100-102. *)
Definition with_fix (r : Row Geom) : Row Geom :=
  {| index := index r; geometry := geometry r; valid := valid r;
     issue := issue r;
     geometry_fixed := Some (buffer (geometry r) 0);
     valid_fixed := Some (is_valid (buffer (geometry r) 0)) |}.

(** That row once [geometry_fixed] has become the geometry column. *)
Definition switched (r : Row Geom) : Row Geom :=
  {| index := index r; geometry := buffer (geometry r) 0; valid := valid r;
     issue := issue r; geometry_fixed := None;
     valid_fixed := Some (is_valid (buffer (geometry r) 0)) |}.

(** The rows whose zero-width buffer is valid, and those whose is not. *)
Definition repairable (gdf : list (Row Geom)) : list (Row Geom) :=
  filter (λ r, is_valid (buffer (geometry r) 0) = true) gdf.
Definition unrepairable (gdf : list (Row Geom)) : list (Row Geom) :=
  filter (λ r, is_valid (buffer (geometry r) 0) = false) gdf.

(** The event of a run that ends with the frame [gdf] (lines 181-186). *)
Definition summary (env : Env Geom) (file_name : string)
    (gdf : list (Row Geom)) : Event :=
  {| filename := file_name; timestamp := now env;
     processing_time := time_end env - time_start env;
     total_features := length gdf |}.
End rows.

(** ** The session state of the script (lines 17-20, 66-69, 163-177)

    [st.session_state] outlives a run of the script: Streamlit runs the
    script again on every interaction and hands it the state the run before
    left.  A key that was never set is [None]. *)

Record Session := {
  versions : option (list (string * string));   (* filename, timestamp *)
  comments : option (list (string * string))    (* comment, timestamp *)
}.

(** What the widgets and the clock give one run. *)
Record Widgets := {
  version_time : string;    (* datetime.now().isoformat() at line 68 *)
  comment : string;         (* st.text_input("Enter your comment") *)
  submit : bool;            (* st.button("Submit Comment") *)
  comment_time : string     (* datetime.now().isoformat() at line 174 *)
}.

(** Lines 19-20. *)
Definition init_versions (s : Session) : Session :=
  match versions s with
  | None => {| versions := Some []; comments := comments s |}
  | Some _ => s
  end.

(** Lines 68-69. *)
Definition save_version (file_name : string) (w : Widgets) (s : Session) : Session :=
  {| versions := (λ vs, vs ++ [(file_name, version_time w)]) <$> versions s;
     comments := comments s |}.

(** Lines 166-175. *)
Definition comment_box (w : Widgets) (s : Session) : Session :=
  let s := match comments s with
           | None => {| versions := versions s; comments := Some [] |}
           | Some _ => s
           end in
  if submit w then
    {| versions := versions s;
       comments := (λ cs, cs ++ [(comment w, comment_time w)]) <$> comments s |}
  else s.

Section session.
Context `{Shapely Geom}.

(** The session one run of the script leaves.  The version is saved right
    after the file is read; the comment box comes after the map and before
    the event, so a run reaches it exactly when [process] returns. *)
Definition session_after (env : Env Geom) (producer : option Producer)
    (file : option (Upload Geom)) (w : Widgets) (s : Session) : Session :=
  let s := init_versions s in
  match file with
  | None => s
  | Some file =>
      match read_file file with
      | Raise _ => s
      | Return geoms =>
          let s := save_version (name file) w s in
          match outcome (process env producer (name file) geoms) with
          | Return _ => comment_box w s
          | Raise _ => s
          end
      end
  end.

(** The session after one run per interaction, in order. *)
Definition session_after_all (env : Env Geom) (producer : option Producer)
    (file : option (Upload Geom)) (ws : list Widgets) (s : Session) : Session :=
  foldl (λ s w, session_after env producer file w s) s ws.
End session.

(** ** What a pool has done so far

    The futures that are finished plus the results already read: every
    step of the pool adds one. *)
Definition pool_work {B : Type} (p : Executor.pool B) : nat :=
  length (filter is_Some (Executor.futures p)) + length (Executor.collected p).


(** ** A small geometry library to run the script on

    Seven geometry values and what the library answers on each of them.
    [Broken] stands for any geometry that a zero-width buffer leaves
    invalid, the case lines 109-116 of the script are written for.  The
    answers for [Dot], [Path] and [NoArea] are those of Shapely; [Square],
    [Bowtie] and [Triangles] stand for a valid polygon the buffer leaves
    alone and for an invalid one it repairs, whatever GEOS makes of the
    coordinates written here. *)

Module Sample.

Inductive shape :=
  | Square      (* a valid polygon that buffer(0) gives back unchanged *)
  | Bowtie      (* a polygon whose ring crosses itself *)
  | Triangles   (* what buffer(0) makes of Bowtie *)
  | Broken      (* invalid, and still invalid after buffer(0) *)
  | Dot         (* POINT (0 0) *)
  | Path        (* LINESTRING (0 0, 1 1) *)
  | NoArea.     (* POLYGON EMPTY *)

#[global] Instance shape_eq_dec : EqDecision shape.
Proof. solve_decision. Defined.

Definition shape_code (s : shape) : nat :=
  match s with
  | Square => 0 | Bowtie => 1 | Triangles => 2 | Broken => 3
  | Dot => 4 | Path => 5 | NoArea => 6
  end.

Definition shape_of_code (n : nat) : shape :=
  match n with
  | 0 => Square | 1 => Bowtie | 2 => Triangles | 3 => Broken
  | 4 => Dot | 5 => Path | _ => NoArea
  end.

#[global] Instance shape_countable : Countable shape.
Proof. apply (inj_countable' shape_code shape_of_code). by intros []. Defined.

Definition shape_is_valid (s : shape) : bool :=
  match s with Bowtie | Broken => false | _ => true end.

Definition shape_explain (s : shape) : string :=
  match s with
  | Bowtie => "Self-intersection[1 1]"
  | Broken => "Self-intersection[0 0]"
  | _ => "Valid Geometry"
  end.

Definition shape_wkt (s : shape) : string :=
  match s with
  | Square => "POLYGON ((0 0, 2 0, 2 2, 0 2, 0 0))"
  | Bowtie => "POLYGON ((0 0, 2 2, 2 0, 0 2, 0 0))"
  | Triangles => "MULTIPOLYGON (((0 0, 0 2, 1 1, 0 0)), ((1 1, 2 2, 2 0, 1 1)))"
  | Broken => "POLYGON ((...))"
  | Dot => "POINT (0 0)"
  | Path => "LINESTRING (0 0, 1 1)"
  | NoArea => "POLYGON EMPTY"
  end.

Definition shape_buffer (s : shape) (distance : Z) : shape :=
  if (distance =? 0)%Z then
    match s with
    | Bowtie => Triangles
    | Dot | Path => NoArea
    | _ => s
    end
  else s.

Definition shape_type (s : shape) : GeomType :=
  match s with
  | Triangles => MultiPolygon
  | Dot => Point
  | Path => LineString
  | _ => Polygon
  end.

Definition shape_is_empty (s : shape) : bool :=
  match s with NoArea => true | _ => false end.

#[global] Instance shapes : Shapely shape := {|
  is_valid := shape_is_valid;
  explain_validity := shape_explain;
  wkt := shape_wkt;
  buffer := shape_buffer;
  geom_type := shape_type;
  is_empty := shape_is_empty
|}.

(** An environment whose map always renders, and one whose map fails. *)
Definition env : Env shape :=
  {| time_start := 100; time_end := 107; now := "2024-01-01T00:00:00";
     render_map := λ _, Return tt |}.

(** A producer that accepts everything, and one whose [send] raises. *)
Definition broker : Producer :=
  {| send := λ _ _, Return tt; flush := Return tt |}.

Definition down : Producer :=
  {| send := λ _ _, Raise (Exception "NoBrokersAvailable"); flush := Return tt |}.

(** An environment whose map cannot be drawn. *)
Definition no_map : Env shape :=
  {| time_start := 100; time_end := 107; now := "2024-01-01T00:00:00";
     render_map := λ _, Raise (Exception "getX called on empty Point") |}.

End Sample.
(** * Properties *)

(** ** The executor reads results in submission order *)

Section executor_facts.
Context {A B : Type} (fn : A → B).
Implicit Types (args : list A) (p : Executor.pool B).

Lemma agrees_submitted args :
  Executor.agrees fn args (replicate (length args) None).
Proof.
  split; [by rewrite length_replicate |].
  intros j b Hj. by apply lookup_replicate in Hj as [? _].
Qed.

Lemma agrees_insert args fs i a :
  Executor.agrees fn args fs → args !! i = Some a →
  Executor.agrees fn args (<[i := Some (fn a)]> fs).
Proof.
  intros [Hlen Hdone] Ha. split; [by rewrite length_insert |].
  intros j b Hj. destruct (decide (i = j)) as [<- | Hne].
  - rewrite list_lookup_insert_eq in Hj
      by (rewrite Hlen; by eapply lookup_lt_Some).
    rewrite Ha. simpl. congruence.
  - rewrite list_lookup_insert_ne in Hj by done. by apply Hdone.
Qed.

Lemma pool_inv_submitted args :
  Executor.pool_inv fn args (Executor.submitted args).
Proof. split; [apply agrees_submitted | done]. Qed.

Lemma pool_inv_step args p q :
  Executor.step fn args p q →
  Executor.pool_inv fn args p → Executor.pool_inv fn args q.
Proof.
  intros Hstep [Hfs Hout].
  destruct Hstep as [i a fs out Hrun Harg | b fs out Hnext]; simpl in *.
  - split; [by apply agrees_insert | done].
  - split; [done |]. simpl.
    destruct Hfs as [_ Hdone]. specialize (Hdone _ _ Hnext).
    destruct (args !! length out) as [a |] eqn:Harg; [| done].
    simpl in Hdone. injection Hdone as <-.
    rewrite length_app. simpl. rewrite Nat.add_1_r.
    rewrite (take_S_r _ _ _ Harg), fmap_app. simpl. by rewrite <- Hout.
Qed.

Lemma pool_inv_rtc args p :
  rtc (Executor.step fn args) (Executor.submitted args) p →
  Executor.pool_inv fn args p.
Proof.
  intros Hrun.
  eapply (rtc_ind_r (λ q, Executor.pool_inv fn args q)); [| | exact Hrun].
  - apply pool_inv_submitted.
  - intros q r _ Hstep IH. by eapply pool_inv_step.
Qed.

Lemma pool_inv_drained args p :
  Executor.pool_inv fn args p → Executor.drained args p →
  Executor.collected p = fn <$> args.
Proof.
  intros [_ Hout] Hall. unfold Executor.drained in Hall.
  rewrite Hall in Hout. by rewrite firstn_all in Hout.
Qed.

(** Running the workers in a given order is a run of the pool. *)
Lemma complete_rtc args fs out i :
  rtc (Executor.step fn args) (Executor.Pool fs out)
      (Executor.Pool (Executor.complete fn args fs i) out).
Proof.
  unfold Executor.complete.
  destruct (fs !! i) as [[b |] |] eqn:Hf; try done.
  destruct (args !! i) as [a |] eqn:Ha; try done.
  apply rtc_once. by constructor.
Qed.

Lemma foldl_complete_rtc args order fs out :
  rtc (Executor.step fn args) (Executor.Pool fs out)
      (Executor.Pool (foldl (Executor.complete fn args) fs order) out).
Proof.
  revert fs. induction order as [| i order IH]; intros fs; simpl; [done |].
  etrans; [apply complete_rtc | apply IH].
Qed.

Lemma collect_rtc args fs out :
  rtc (Executor.step fn args) (Executor.Pool fs out)
      (Executor.Pool fs (out ++ Executor.collect (drop (length out) fs))).
Proof.
  remember (length fs - length out) as n eqn:Hn.
  revert out Hn. induction n as [| n IH]; intros out Hn.
  - rewrite drop_ge by lia. simpl. by rewrite app_nil_r.
  - destruct (fs !! length out) as [[b |] |] eqn:Hf.
    + rewrite (drop_S _ _ _ Hf). simpl.
      eapply rtc_l; [by constructor |].
      replace (out ++ b :: Executor.collect (drop (S (length out)) fs))
        with ((out ++ [b]) ++ Executor.collect (drop (length (out ++ [b])) fs)).
      * apply IH. rewrite length_app. simpl. lia.
      * rewrite length_app, <- app_assoc. simpl. by rewrite Nat.add_1_r.
    + rewrite (drop_S _ _ _ Hf). simpl. by rewrite app_nil_r.
    + apply lookup_ge_None in Hf. lia.
Qed.

Lemma run_reachable args order :
  rtc (Executor.step fn args) (Executor.submitted args)
      (Executor.Pool
         (foldl (Executor.complete fn args) (replicate (length args) None) order)
         (Executor.run fn args order)).
Proof.
  etrans; [apply foldl_complete_rtc |]. apply (collect_rtc args _ []).
Qed.

Lemma agrees_complete args fs k :
  Executor.agrees fn args fs →
  Executor.agrees fn args (Executor.complete fn args fs k).
Proof.
  intros Hfs. unfold Executor.complete.
  destruct (fs !! k) as [[b |] |] eqn:Hf; try done.
  destruct (args !! k) as [a |] eqn:Ha; try done.
  by apply agrees_insert.
Qed.

Lemma lookup_complete args fs k i a :
  Executor.agrees fn args fs → args !! i = Some a →
  Executor.complete fn args fs k !! i =
    if decide (k = i) then Some (Some (fn a)) else fs !! i.
Proof.
  intros [Hlen Hdone] Ha. unfold Executor.complete.
  destruct (decide (k = i)) as [-> | Hne].
  - rewrite Ha. destruct (fs !! i) as [[b |] |] eqn:Hf.
    + specialize (Hdone _ _ Hf). rewrite Ha in Hdone. simpl in Hdone.
      rewrite Hf. congruence.
    + apply list_lookup_insert_eq. by eapply lookup_lt_Some.
    + apply lookup_ge_None in Hf. apply lookup_lt_Some in Ha. lia.
  - destruct (fs !! k) as [[b |] |] eqn:Hf; try done.
    destruct (args !! k) as [a' |] eqn:Ha'; try done.
    by apply list_lookup_insert_ne.
Qed.

(** The futures after the workers named by [order] have finished. *)
Lemma lookup_foldl_complete args order fs i a :
  Executor.agrees fn args fs → args !! i = Some a →
  foldl (Executor.complete fn args) fs order !! i =
    if decide (i ∈ order) then Some (Some (fn a)) else fs !! i.
Proof.
  revert fs. induction order as [| k order IH]; intros fs Hfs Ha; cbn [foldl].
  - by rewrite decide_False by apply not_elem_of_nil.
  - rewrite (IH _ (agrees_complete _ _ k Hfs) Ha).
    rewrite (lookup_complete _ _ _ _ _ Hfs Ha).
    destruct (decide (i ∈ order)) as [Hin | Hnin].
    + by rewrite decide_True by (by right).
    + destruct (decide (k = i)) as [-> | Hne].
      * by rewrite decide_True by left.
      * rewrite decide_False; [done |].
        intros [-> | ?]%elem_of_cons; done.
Qed.

Lemma collect_done (bs : list B) :
  Executor.collect (Some <$> bs) = bs.
Proof. induction bs as [| b bs IH]; simpl; [done | by f_equal]. Qed.

Lemma run_in_order args order :
  (∀ i, i < length args → i ∈ order) →
  Executor.run fn args order = fn <$> args.
Proof.
  intros Hall. unfold Executor.run.
  pose proof (agrees_submitted args) as Hinit.
  rewrite <- (collect_done (fn <$> args)). f_equal.
  apply list_eq. intros i.
  destruct (args !! i) as [a |] eqn:Ha.
  - rewrite (lookup_foldl_complete _ _ _ _ _ Hinit Ha).
    rewrite decide_True by (apply Hall; by eapply lookup_lt_Some).
    by rewrite !list_lookup_fmap, Ha.
  - rewrite !list_lookup_fmap, Ha. simpl.
    apply lookup_ge_None. apply lookup_ge_None in Ha.
    assert (length (foldl (Executor.complete fn args)
              (replicate (length args) None) order) = length args) as ->; [| done].
    clear Hall Ha. revert Hinit. generalize (replicate (length args) (@None B)).
    induction order as [| k order IH]; intros fs Hfs; simpl; [apply Hfs |].
    apply IH. by apply agrees_complete.
Qed.
End executor_facts.

(** ** pandas *)

Section pandas_facts.
Context {A : Type}.

Lemma elem_of_bool_index (df : list A) (mask : list bool) (r : A) :
  r ∈ Pandas.bool_index df mask ↔
  ∃ i, df !! i = Some r ∧ mask !! i = Some true.
Proof.
  revert mask. induction df as [| x df IH]; intros [| b mask]; simpl.
  - split; [by intros ?%elem_of_nil | by intros (i & ? & ?)].
  - split; [by intros ?%elem_of_nil | by intros (i & ? & ?)].
  - split; [by intros ?%elem_of_nil | by intros (i & ? & ?)].
  - destruct b.
    + rewrite elem_of_cons, IH. split.
      * intros [-> | (i & ? & ?)]; [by exists 0 | by exists (S i)].
      * intros ([| i] & Hi & Hm); simpl in *; [left; congruence | right; eauto].
    + rewrite IH. split.
      * intros (i & ? & ?). by exists (S i).
      * intros ([| i] & Hi & Hm); simpl in *; [done | eauto].
Qed.
End pandas_facts.

Section duplicated_facts.
Context `{Countable K}.
Implicit Types (values pre : list K) (table : gmap K nat) (out : list bool).

Lemma repeated_lt values j : Pandas.repeated values j → j < length values.
Proof. intros (j' & v & _ & Hj & _). by eapply lookup_lt_Some. Qed.

Lemma repeated_snoc pre v j :
  j < length pre →
  Pandas.repeated (pre ++ [v]) j ↔
  Pandas.repeated pre j ∨ pre !! j = Some v.
Proof.
  intros Hj. split.
  - intros (j' & w & Hne & Hw & Hw').
    rewrite lookup_app_l in Hw by done.
    destruct (decide (j' < length pre)) as [Hlt | Hge].
    + rewrite lookup_app_l in Hw' by done. left. by exists j', w.
    + rewrite lookup_app_r in Hw' by lia.
      apply list_lookup_singleton_Some in Hw' as [_ <-]. by right.
  - intros [(j' & w & Hne & Hw & Hw') | Hv].
    + exists j', w. split_and!; [done | |]; apply lookup_app_l_Some; done.
    + exists (length pre), v. split_and!; [lia | by apply lookup_app_l_Some |].
      rewrite lookup_app_r by lia. by rewrite Nat.sub_diag.
Qed.

Lemma repeated_last pre v :
  Pandas.repeated (pre ++ [v]) (length pre) ↔ v ∈ pre.
Proof.
  split.
  - intros (j' & w & Hne & Hw & Hw').
    rewrite lookup_app_r in Hw by lia. rewrite Nat.sub_diag in Hw.
    injection Hw as <-.
    assert (j' < length (pre ++ [v])) as Hlt by (by eapply lookup_lt_Some).
    rewrite length_app in Hlt. simpl in Hlt.
    rewrite lookup_app_l in Hw' by lia. by eapply list_elem_of_lookup_2.
  - intros (j' & Hj')%list_elem_of_lookup_1.
    exists j', v. split_and!.
    + apply lookup_lt_Some in Hj'. lia.
    + rewrite lookup_app_r by lia. by rewrite Nat.sub_diag.
    + by apply lookup_app_l_Some.
Qed.

Lemma loop_inv_seen pre table out v k :
  length pre < length out →
  Pandas.loop_inv pre table out → table !! v = Some k →
  Pandas.loop_inv (pre ++ [v]) table (<[length pre := true]> (<[k := true]> out)).
Proof.
  intros Hlen (Htab & Hfresh & Hout) Hk.
  pose proof (Htab _ _ Hk) as Hprek.
  pose proof (lookup_lt_Some _ _ _ Hprek) as Hklt.
  split_and!.
  - intros w k' Hw. apply lookup_app_l_Some. by apply Htab.
  - intros w Hw [Hin | ->%list_elem_of_singleton]%elem_of_app.
    + by apply (Hfresh w).
    + congruence.
  - intros j Hj. rewrite length_app in Hj. simpl in Hj.
    destruct (decide (j = length pre)) as [-> | Hne].
    { exists true. split.
      - apply list_lookup_insert_eq. by rewrite length_insert.
      - split; [intros _ | done]. apply repeated_last.
        by eapply list_elem_of_lookup_2. }
    assert (j < length pre) as Hjlt by lia.
    rewrite list_lookup_insert_ne by done.
    destruct (decide (j = k)) as [-> | Hnk].
    { exists true. split.
      - apply list_lookup_insert_eq. lia.
      - split; [intros _ | done]. apply repeated_snoc; [done | by right]. }
    rewrite list_lookup_insert_ne by done.
    destruct (Hout j Hjlt) as (b & Hb & Hiff). exists b. split; [done |].
    rewrite Hiff, repeated_snoc by done. split; [by left |].
    intros [? | Hv]; [done |]. exists k, v. done.
Qed.

Lemma loop_inv_fresh pre table out v :
  length pre < length out →
  Pandas.loop_inv pre table out → table !! v = None →
  Pandas.loop_inv (pre ++ [v]) (<[v := length pre]> table) (<[length pre := false]> out).
Proof.
  intros Hlen (Htab & Hfresh & Hout) Hnone.
  pose proof (Hfresh _ Hnone) as Hnotin.
  split_and!.
  - intros w k' Hw. destruct (decide (v = w)) as [<- | Hne].
    + rewrite lookup_insert_eq in Hw. injection Hw as <-.
      rewrite lookup_app_r by lia. by rewrite Nat.sub_diag.
    + rewrite lookup_insert_ne in Hw by done.
      apply lookup_app_l_Some. by apply Htab.
  - intros w Hw. destruct (decide (v = w)) as [<- | Hne].
    + by rewrite lookup_insert_eq in Hw.
    + rewrite lookup_insert_ne in Hw by done.
      intros [Hin | ->%list_elem_of_singleton]%elem_of_app; [| done].
      by apply (Hfresh w).
  - intros j Hj. rewrite length_app in Hj. simpl in Hj.
    destruct (decide (j = length pre)) as [-> | Hne].
    { exists false. split; [by apply list_lookup_insert_eq |].
      split; [done |]. by intros ?%repeated_last. }
    assert (j < length pre) as Hjlt by lia.
    rewrite list_lookup_insert_ne by done.
    destruct (Hout j Hjlt) as (b & Hb & Hiff). exists b. split; [done |].
    rewrite Hiff, repeated_snoc by done. split; [by left |].
    intros [? | Hv]; [done |]. destruct Hnotin. by eapply list_elem_of_lookup_2.
Qed.

Lemma duplicated_loop_out values pre table out :
  length out = length (pre ++ values) →
  Pandas.loop_inv pre table out →
  length (Pandas.duplicated_loop values (length pre) table out)
    = length (pre ++ values) ∧
  ∀ j, j < length (pre ++ values) →
    ∃ b, Pandas.duplicated_loop values (length pre) table out !! j = Some b ∧
         (b = true ↔ Pandas.repeated (pre ++ values) j).
Proof.
  revert pre table out.
  induction values as [| v rest IH]; intros pre table out Hlen Hinv; simpl.
  - rewrite app_nil_r in *. split; [done |]. apply Hinv.
  - assert (length pre < length out) as Hlt.
    { rewrite Hlen, length_app. simpl. lia. }
    assert (pre ++ v :: rest = (pre ++ [v]) ++ rest) as Heq
      by (by rewrite <- app_assoc).
    assert (S (length pre) = length (pre ++ [v])) as HS
      by (rewrite length_app; simpl; lia).
    rewrite Heq, HS.
    destruct (table !! v) as [k |] eqn:Hk.
    + apply IH; [by rewrite !length_insert, <- Heq | by apply loop_inv_seen].
    + apply IH; [by rewrite !length_insert, <- Heq | by apply loop_inv_fresh].
Qed.

Lemma length_duplicated values :
  length (Pandas.duplicated values) = length values.
Proof.
  unfold Pandas.duplicated.
  apply (duplicated_loop_out values [] ∅); [by rewrite length_replicate |].
  split_and!; [done | by intros v _ ?%elem_of_nil | simpl; lia].
Qed.

Lemma lookup_duplicated values j :
  Pandas.duplicated values !! j = Some true ↔ Pandas.repeated values j.
Proof.
  unfold Pandas.duplicated.
  destruct (duplicated_loop_out values [] ∅ (replicate (length values) false))
    as [Hlen Hout]; [by rewrite length_replicate | |].
  { split_and!; [done | by intros v _ ?%elem_of_nil | simpl; lia]. }
  simpl in *. split.
  - intros Hj. destruct (Hout j) as (b & Hb & Hiff).
    { apply lookup_lt_Some in Hj. lia. }
    apply Hiff. congruence.
  - intros Hrep. destruct (Hout j (repeated_lt _ _ Hrep)) as (b & Hb & Hiff).
    apply Hiff in Hrep. congruence.
Qed.

Lemma duplicated_NoDup values j :
  NoDup values → Pandas.duplicated values !! j ≠ Some true.
Proof.
  intros Hnd (j' & v & Hne & Hj & Hj')%lookup_duplicated.
  apply Hne. by eapply NoDup_lookup.
Qed.
End duplicated_facts.

(** ** The script *)

Section script_facts.
Context `{Shapely Geom}.
Implicit Types (geoms : list Geom) (gdf : list (Row Geom)) (r : Row Geom).
Implicit Types (env : Env Geom) (producer : option Producer).

Lemma filter_fmap_rows {X Y} (f : X → Y) (P : Y → Prop)
    `{∀ y, Decision (P y)} (l : list X) :
  filter P (f <$> l) = f <$> filter (λ x, P (f x)) l.
Proof.
  induction l as [| x l IH]; [done |].
  rewrite fmap_cons, !filter_cons. case_decide; by rewrite IH.
Qed.

(** *** Validation *)

Lemma validate_imap geoms : validate geoms = imap validated geoms.
Proof.
  unfold validate, assign_validation, Executor.map.
  apply list_eq. intros i. rewrite !list_lookup_imap.
  rewrite lookup_zip_with.
  destruct (geoms !! i) as [g |] eqn:Hg; [| done]. simpl.
  rewrite lookup_zip_with, !list_lookup_fmap, Hg. done.
Qed.

Lemma length_validate geoms : length (validate geoms) = length geoms.
Proof. by rewrite validate_imap, length_imap. Qed.

Lemma lookup_validate geoms i :
  validate geoms !! i = validated i <$> geoms !! i.
Proof. by rewrite validate_imap, list_lookup_imap. Qed.

Lemma elem_of_validate geoms r :
  r ∈ validate geoms ↔ ∃ i g, geoms !! i = Some g ∧ r = validated i g.
Proof.
  rewrite validate_imap, elem_of_lookup_imap.
  split; intros (i & g & ? & ?); by exists i, g.
Qed.

(** Rows of a validated frame carry distinct labels. *)
Lemma validate_index_inj geoms r r' :
  r ∈ validate geoms → r' ∈ validate geoms → index r = index r' → r = r'.
Proof.
  intros (i & g & Hg & ->)%elem_of_validate (i' & g' & Hg' & ->)%elem_of_validate.
  simpl. intros <-. congruence.
Qed.

(** *** Repair *)

Lemma fix_columns gdf :
  assign_valid_fixed (assign_geometry_fixed gdf) = with_fix <$> gdf.
Proof.
  unfold assign_valid_fixed, assign_geometry_fixed.
  rewrite <- list_fmap_compose. by apply list_fmap_ext.
Qed.

Lemma still_invalid_rows gdf :
  filter (λ r, valid_fixed r = Some false) (with_fix <$> gdf) =
  with_fix <$> filter (λ r, is_valid (buffer (geometry r) 0) = false) gdf.
Proof.
  rewrite filter_fmap_rows. f_equal. apply list_filter_iff.
  intros r. simpl. split; [by intros [= ->] | by intros ->].
Qed.

Lemma kept_rows gdf :
  set_geometry_fixed
    (filter (λ r, valid_fixed r = Some true) (with_fix <$> gdf)) =
  switched <$> filter (λ r, is_valid (buffer (geometry r) 0) = true) gdf.
Proof.
  rewrite filter_fmap_rows. unfold set_geometry_fixed.
  rewrite <- list_fmap_compose.
  erewrite list_filter_iff; [by apply list_fmap_ext |].
  intros r. simpl. split; [by intros [= ->] | by intros ->].
Qed.

Lemma all_kept_rows gdf :
  filter (λ r, is_valid (buffer (geometry r) 0) = false) gdf = [] →
  filter (λ r, is_valid (buffer (geometry r) 0) = true) gdf = gdf.
Proof.
  induction gdf as [| r gdf IH]; [done |].
  rewrite !filter_cons. intros Hnil.
  destruct (is_valid (buffer (geometry r) 0)) eqn:Hr.
  - rewrite decide_False in Hnil by done.
    rewrite decide_True by done. by rewrite IH.
  - by rewrite decide_True in Hnil by done.
Qed.

Lemma repair_skipped gdf :
  filter (λ r, valid r = false) gdf = [] →
  repair gdf =
    ([St Success AllValid; Logger Info AllValid],
     Return {| rp_gdf := gdf; rp_invalid_geometries := [];
               rp_fixed := None; rp_still_invalid := None |}).
Proof. intros Hnone. unfold repair. by rewrite Hnone. Qed.

Lemma repair_attempted gdf :
  filter (λ r, valid r = false) gdf ≠ [] →
  repair gdf =
    ([St Warning (DetectedInvalid (length (filter (λ r, valid r = false) gdf)));
      Logger Warning (DetectedInvalid (length (filter (λ r, valid r = false) gdf)));
      Dataframe (Issues (Pandas.head 10
        ((λ r, (index r, issue r)) <$> filter (λ r, valid r = false) gdf)))]
     ++ (if Pandas.empty (unrepairable gdf)
         then [St Success AllFixed]
         else [St Error (RemainInvalid (length (unrepairable gdf)));
               Logger Error (RemainInvalid (length (unrepairable gdf)));
               Dataframe (Geometries (Pandas.head 10
                 ((λ r, (index r, geometry r)) <$> unrepairable gdf)))]),
     Return {| rp_gdf := switched <$> repairable gdf;
               rp_invalid_geometries := filter (λ r, valid r = false) gdf;
               rp_fixed := Some (with_fix <$> gdf);
               rp_still_invalid := Some (with_fix <$> unrepairable gdf) |}).
Proof.
  intros Hsome. unfold repair.
  destruct (filter (λ r, valid r = false) gdf) as [| r0 inv] eqn:Hinv; [done |].
  cbn [Pandas.empty negb]. rewrite fix_columns, still_invalid_rows.
  fold (unrepairable gdf).
  destruct (unrepairable gdf) as [| r1 bad] eqn:Hbad.
  - cbn [fmap list_fmap Pandas.empty].
    unfold repairable. rewrite <- (kept_rows gdf).
    assert (filter (λ r, valid_fixed r = Some true) (with_fix <$> gdf)
            = with_fix <$> gdf) as ->; [| done].
    rewrite filter_fmap_rows. f_equal.
    rewrite <- (all_kept_rows gdf Hbad) at 2.
    apply list_filter_iff. intros r. simpl.
    split; [by intros [= ->] | by intros ->].
  - unfold repairable. rewrite <- (kept_rows gdf).
    assert (((λ r, (index r, geometry r)) <$> (with_fix <$> r1 :: bad))
            = (λ r, (index r, geometry r)) <$> r1 :: bad) as Htable
      by (by rewrite <- list_fmap_compose).
    cbn [fmap list_fmap Pandas.empty] in *.
    unfold mbind, M_bind, tell, mret, M_ret. cbn [app].
    rewrite Htable. cbn [length]. by rewrite length_fmap.
Qed.

Lemma filter_nil_intro {X} (P : X → Prop) `{∀ x, Decision (P x)} (l : list X) :
  (∀ x, x ∈ l → ¬ P x) → filter P l = [].
Proof.
  induction l as [| x l IH]; intros Hl; [done |].
  rewrite filter_cons, decide_False by (apply Hl; left).
  apply IH. intros y Hy. apply Hl. by right.
Qed.

Lemma invalid_rows_nil geoms :
  filter (λ r, valid r = false) (validate geoms) = [] ↔
  ∀ g, g ∈ geoms → is_valid g = true.
Proof.
  split.
  - intros Hnil g (i & Hi)%list_elem_of_lookup_1.
    destruct (is_valid g) eqn:Hg; [done |].
    destruct (filter_nil_not_elem_of _ _ (validated i g) Hnil); [done |].
    apply elem_of_validate. by exists i, g.
  - intros Hall. apply filter_nil_intro.
    intros r (i & g & Hg & ->)%elem_of_validate. simpl.
    rewrite (Hall g) by (by eapply list_elem_of_lookup_2). done.
Qed.

Lemma invalid_rows_cons geoms :
  (∃ g, g ∈ geoms ∧ is_valid g = false) →
  filter (λ r, valid r = false) (validate geoms) ≠ [].
Proof.
  intros (g & Hin & Hg) Hnil.
  rewrite invalid_rows_nil in Hnil. specialize (Hnil g Hin). congruence.
Qed.

Lemma all_valid_dec geoms :
  (∀ g, g ∈ geoms → is_valid g = true) ∨ (∃ g, g ∈ geoms ∧ is_valid g = false).
Proof.
  induction geoms as [| g geoms [IH | (g' & Hin & Hg')]].
  - left. by intros g ?%elem_of_nil.
  - destruct (is_valid g) eqn:Hg.
    + left. intros g' [-> | ?]%elem_of_cons; auto.
    + right. exists g. split; [left | done].
  - right. exists g'. split; [by right | done].
Qed.

Lemma elem_of_kept geoms r :
  r ∈ switched <$> repairable (validate geoms) ↔
  ∃ i g, geoms !! i = Some g ∧ is_valid (buffer g 0) = true ∧
         r = switched (validated i g).
Proof.
  rewrite list_elem_of_fmap. unfold repairable. split.
  - intros (r0 & -> & [Hok (i & g & Hg & ->)%elem_of_validate]%list_elem_of_filter).
    by exists i, g.
  - intros (i & g & Hg & Hok & ->). exists (validated i g). split; [done |].
    apply list_elem_of_filter. split; [done |].
    apply elem_of_validate. by exists i, g.
Qed.

Lemma elem_of_still geoms r :
  r ∈ with_fix <$> unrepairable (validate geoms) ↔
  ∃ i g, geoms !! i = Some g ∧ is_valid (buffer g 0) = false ∧
         r = with_fix (validated i g).
Proof.
  rewrite list_elem_of_fmap. unfold unrepairable. split.
  - intros (r0 & -> & [Hok (i & g & Hg & ->)%elem_of_validate]%list_elem_of_filter).
    by exists i, g.
  - intros (i & g & Hg & Hok & ->). exists (validated i g). split; [done |].
    apply list_elem_of_filter. split; [done |].
    apply elem_of_validate. by exists i, g.
Qed.

(** *** Publishing *)

Lemma send_kafka_event_returns producer topic ev :
  outcome (@send_kafka_event Geom producer topic ev) = Return tt.
Proof.
  destruct producer as [p |]; [| done]. unfold send_kafka_event.
  unfold mbind, M_bind, call, tell.
  destruct (send p topic ev) as [[] | e]; [| done].
  destruct (flush p) as [[] | e]; done.
Qed.

Lemma output_send_kafka_event producer topic ev :
  ∀ o, o ∈ output (@send_kafka_event Geom producer topic ev) →
       ∃ level m, o = Logging level m.
Proof.
  intros o. destruct producer as [p |]; unfold send_kafka_event.
  - unfold mbind, M_bind, call, tell, output.
    destruct (send p topic ev) as [[] | e]; [destruct (flush p) as [[] | e] |];
      simpl; intros ->%list_elem_of_singleton; eauto.
  - simpl. intros ->%list_elem_of_singleton; eauto.
Qed.

(** *** The whole run *)

Lemma repair_returns gdf : ∃ outs rp, repair gdf = (outs, Return rp).
Proof.
  destruct (decide (filter (λ r, valid r = false) gdf = [])) as [Hnil | Hcons].
  - rewrite (repair_skipped _ Hnil). eauto.
  - rewrite (repair_attempted _ Hcons). eauto.
Qed.

Lemma detect_duplicates_returns gdf :
  outcome (detect_duplicates gdf) =
    Return (Pandas.duplicated (geometry <$> gdf),
            Pandas.bool_index gdf (Pandas.duplicated (geometry <$> gdf))).
Proof.
  unfold detect_duplicates.
  by destruct (Pandas.bool_index gdf (Pandas.duplicated (geometry <$> gdf))).
Qed.

Lemma visualize_empty env : 
  visualize env [] =
    ([St Error NoValidToVisualize; Logger Error NoValidToVisualize], Return tt).
Proof. done. Qed.


Lemma visualize_failed env gdf e :
  gdf ≠ [] → render_map env (geometry <$> gdf) = Raise e →
  visualize env gdf = ([], Raise e).
Proof.
  intros Hgdf Hmap. destruct gdf as [| r gdf]; [done |].
  unfold visualize. cbn [Pandas.empty negb].
  unfold mbind, M_bind, call, tell. by rewrite Hmap.
Qed.

Lemma process_returns env producer name geoms o1 rp o3 :
  repair (validate geoms) = (o1, Return rp) →
  visualize env (rp_gdf rp) = (o3, Return tt) →
  process env producer name geoms =
    (Logger Info FileLoaded
     :: Dataframe (Preview (Pandas.head 10 (seq 0 (length geoms))))
     :: o1 ++ output (detect_duplicates (rp_gdf rp)) ++ o3
     ++ St Info (ProcessingTime (time_end env - time_start env))
     :: output (@send_kafka_event Geom producer "geojson_upload_events"
                  (summary env name (rp_gdf rp))),
     Return {| gdf := rp_gdf rp; repaired := rp;
               duplicates := Pandas.duplicated (geometry <$> rp_gdf rp);
               duplicate_geometries :=
                 Pandas.bool_index (rp_gdf rp)
                   (Pandas.duplicated (geometry <$> rp_gdf rp));
               event := summary env name (rp_gdf rp) |}).
Proof.
  intros Hrp Hmap. unfold process. cbv zeta. rewrite Hrp.
  pose proof (detect_duplicates_returns (rp_gdf rp)) as Hdup.
  pose proof (send_kafka_event_returns producer "geojson_upload_events"
                (summary env name (rp_gdf rp))) as Hsend.
  unfold outcome, output, summary in *.
  unfold mbind, M_bind, tell, mret, M_ret. rewrite Hmap.
  destruct (detect_duplicates (rp_gdf rp)) as [o2 d]. simpl in Hdup. subst d.
  destruct (send_kafka_event _ _ _) as [o4 s]. simpl in Hsend. subst s.
  cbn [app fst]. by rewrite !app_nil_r.
Qed.

Lemma process_raises env producer name geoms o1 rp o3 e :
  repair (validate geoms) = (o1, Return rp) →
  visualize env (rp_gdf rp) = (o3, Raise e) →
  outcome (process env producer name geoms) = Raise e.
Proof.
  intros Hrp Hmap. unfold process. cbv zeta. rewrite Hrp.
  pose proof (detect_duplicates_returns (rp_gdf rp)) as Hdup.
  unfold outcome in *.
  unfold mbind, M_bind, tell, mret, M_ret. rewrite Hmap.
  destruct (detect_duplicates (rp_gdf rp)) as [o2 d]. simpl in Hdup. by subst d.
Qed.
End script_facts.

(** ** The claims *)

(** Go through the entries of a list a hypothesis says something is in. *)
Ltac shown H :=
  repeat match type of H with
    | _ ∈ _ ++ _ => apply elem_of_app in H as [H | H]
    | _ ∈ _ :: _ => apply elem_of_cons in H as [H | H]
    | _ ∈ [] => by apply elem_of_nil in H
    | list_elem_of _ (_ :: _) => apply elem_of_cons in H as [H | H]
    | list_elem_of _ [] => by apply elem_of_nil in H
    | _ = _ => discriminate H
    end.

Section claims.
Context `{Shapely Geom}.
Implicit Types (geoms : list Geom) (r : Row Geom).
Implicit Types (env : Env Geom) (producer : option Producer).

(** C3. The validator's issue is [None] exactly when the geometry is
    valid; when the geometry is invalid it is the library's explanation,
    which is a non-empty text provided the library explains every invalid
    geometry with one. *)
Theorem parallel_validate_issue
    (Hexplain : ∀ g : Geom, is_valid g = false → explain_validity g ≠ "")
    (geom : Geom) :
  v_valid (parallel_validate geom) = is_valid geom ∧
  (is_valid geom = true → v_issue (parallel_validate geom) = None) ∧
  (is_valid geom = false →
     ∃ text, v_issue (parallel_validate geom) = Some text ∧ text ≠ "") ∧
  (v_issue (parallel_validate geom) ≠ None ↔
     v_valid (parallel_validate geom) = false).
Proof.
  unfold parallel_validate. simpl.
  destruct (is_valid geom) eqn:Hvalid.
  - split_and!; [done | done | done |]. split; [by intros [] | done].
  - split_and!; [done | done | |].
    + intros _. exists (explain_validity geom). split; [done | by apply Hexplain].
    + split; [done | by intros _].
Qed.

(** C4. Whatever order the workers finish in, reading the pool to the end
    gives exactly one verdict per geometry, the one of position [i] being
    the verdict of geometry [i]; these are the values the frame's [valid]
    and [issue] columns receive. *)
Theorem validation_results_in_order geoms :
  (∀ p, rtc (Executor.step parallel_validate geoms) (Executor.submitted geoms) p →
        Executor.drained geoms p →
        Executor.collected p = Executor.map parallel_validate geoms) ∧
  (∀ order, order ≡ₚ seq 0 (length geoms) →
     Executor.run parallel_validate geoms order
       = Executor.map parallel_validate geoms ∧
     ∃ p, rtc (Executor.step parallel_validate geoms) (Executor.submitted geoms) p ∧
          Executor.drained geoms p ∧
          Executor.collected p = Executor.run parallel_validate geoms order) ∧
  length (Executor.map parallel_validate geoms) = length geoms ∧
  (∀ i, Executor.map parallel_validate geoms !! i
          = parallel_validate <$> geoms !! i) ∧
  (∀ i g, geoms !! i = Some g →
     ∃ r, validate geoms !! i = Some r ∧ index r = i ∧ geometry r = g ∧
          valid r = v_valid (parallel_validate g) ∧
          issue r = v_issue (parallel_validate g)).
Proof.
  split_and!.
  - intros p Hrun Hall.
    by apply pool_inv_drained; [apply pool_inv_rtc |].
  - intros order Horder.
    assert (Executor.run parallel_validate geoms order
            = Executor.map parallel_validate geoms) as Hrun.
    { apply run_in_order. intros i Hi. rewrite Horder. apply elem_of_seq. lia. }
    split; [done |].
    eexists. split; [apply (run_reachable _ _ order) |].
    split; [| done]. unfold Executor.drained. simpl.
    rewrite Hrun. unfold Executor.map. by rewrite length_fmap.
  - unfold Executor.map. by rewrite length_fmap.
  - intros i. unfold Executor.map. by rewrite list_lookup_fmap.
  - intros i g Hg. exists (validated i g).
    rewrite lookup_validate, Hg. done.
Qed.

(** C1. The repair branch runs exactly when validation found an invalid
    geometry. When it runs, every record of the batch gets the zero-width
    buffer of its geometry in [geometry_fixed]; when it does not, the
    frame is left as validation made it and every record keeps its own
    geometry. *)
Theorem repair_batch_trigger geoms :
  ∃ outs rp,
    repair (validate geoms) = (outs, Return rp) ∧
    (rp_fixed rp ≠ None ↔ ∃ g, g ∈ geoms ∧ is_valid g = false) ∧
    (∀ fixed, rp_fixed rp = Some fixed →
       length fixed = length geoms ∧
       ∀ i g, geoms !! i = Some g →
         ∃ r, fixed !! i = Some r ∧ index r = i ∧ geometry r = g ∧
              geometry_fixed r = Some (buffer g 0)) ∧
    ((∀ g, g ∈ geoms → is_valid g = true) →
       rp_fixed rp = None ∧ rp_still_invalid rp = None ∧
       length (rp_gdf rp) = length geoms ∧
       ∀ i g, geoms !! i = Some g →
         ∃ r, rp_gdf rp !! i = Some r ∧ index r = i ∧ geometry r = g ∧
              geometry_fixed r = None).
Proof.
  destruct (all_valid_dec geoms) as [Hall | Hsome].
  - pose proof (proj2 (invalid_rows_nil geoms) Hall) as Hnil.
    eexists _, _. split; [apply (repair_skipped _ Hnil) |]. simpl.
    split_and!.
    + split; [done |]. intros (g & Hin & Hg). rewrite (Hall g Hin) in Hg. done.
    + done.
    + intros _. split_and!; [done | done | apply length_validate |].
      intros i g Hg. exists (validated i g).
      by rewrite lookup_validate, Hg.
  - pose proof (invalid_rows_cons geoms Hsome) as Hcons.
    eexists _, _. split; [apply (repair_attempted _ Hcons) |]. simpl.
    split_and!.
    + done.
    + intros fixed [= <-]. split; [by rewrite length_fmap, length_validate |].
      intros i g Hg. exists (with_fix (validated i g)).
      by rewrite list_lookup_fmap, lookup_validate, Hg.
    + intros Hall. destruct Hsome as (g & Hin & Hg).
      rewrite (Hall g Hin) in Hg. done.
Qed.


(** C6, as the code has it. A record whose original geometry is valid
    keeps that geometry when the repair pass did not run. When the pass
    ran, the record is kept exactly when the zero-width buffer of its
    geometry is valid, and its geometry is then that buffer: it is the
    original one when the buffer gives the geometry back unchanged. *)
Theorem final_geometry_of_valid geoms i g
    (Hrecord : geoms !! i = Some g) (Hvalid : is_valid g = true) :
  ∃ outs rp,
    repair (validate geoms) = (outs, Return rp) ∧
    ((∀ g', g' ∈ geoms → is_valid g' = true) →
       ∃ r, rp_gdf rp !! i = Some r ∧ index r = i ∧ geometry r = g) ∧
    ((∃ g', g' ∈ geoms ∧ is_valid g' = false) →
       (is_valid (buffer g 0) = true →
          ∃ r, r ∈ rp_gdf rp ∧ index r = i ∧ geometry r = buffer g 0) ∧
       (is_valid (buffer g 0) = false →
          ∀ r, r ∈ rp_gdf rp → index r ≠ i) ∧
       (buffer g 0 = g →
          ∃ r, r ∈ rp_gdf rp ∧ index r = i ∧ geometry r = g)).
Proof.
  destruct (all_valid_dec geoms) as [Hall | Hsome].
  - pose proof (proj2 (invalid_rows_nil geoms) Hall) as Hnil.
    eexists _, _. split; [apply (repair_skipped _ Hnil) |]. cbn [rp_gdf].
    split.
    + intros _. exists (validated i g). by rewrite lookup_validate, Hrecord.
    + intros (g' & Hin & Hg'). rewrite (Hall g' Hin) in Hg'. done.
  - pose proof (invalid_rows_cons geoms Hsome) as Hcons.
    eexists _, _. split; [apply (repair_attempted _ Hcons) |]. cbn [rp_gdf].
    split.
    + intros Hall. destruct Hsome as (g' & Hin & Hg').
      rewrite (Hall g' Hin) in Hg'. done.
    + intros _. split_and!.
      * intros Hok. exists (switched (validated i g)).
        split; [| done]. apply elem_of_kept. by exists i, g.
      * intros Hbad r (i' & g' & Hg' & Hok & ->)%elem_of_kept. simpl.
        intros ->. rewrite Hrecord in Hg'. injection Hg' as <-. congruence.
      * intros Hsame. exists (switched (validated i g)).
        split; [| by simpl]. apply elem_of_kept. exists i, g.
        split_and!; [done | by rewrite Hsame | done].
Qed.

(** C10. Suppose the library gives an empty geometry as the zero-width
    buffer of a Point or LineString, and finds empty geometries valid.
    Then, when the repair pass runs, a record whose geometry is a valid
    Point or LineString is kept, and its geometry in the kept frame is
    the empty buffer, not the shape it came with. *)
Theorem non_areal_becomes_empty
    (Hbuffer : ∀ g : Geom, non_areal (geom_type g) = true →
                 is_empty (buffer g 0) = true)
    (Hempty : ∀ g : Geom, is_empty g = true → is_valid g = true)
    geoms i g
    (Hinvalid : ∃ g', g' ∈ geoms ∧ is_valid g' = false)
    (Hrecord : geoms !! i = Some g)
    (Hvalid : is_valid g = true)
    (Hkind : non_areal (geom_type g) = true) :
  ∃ outs rp r,
    repair (validate geoms) = (outs, Return rp) ∧
    r ∈ rp_gdf rp ∧ index r = i ∧
    geometry r = buffer g 0 ∧ is_empty (geometry r) = true ∧
    (is_empty g = false → geometry r ≠ g) ∧
    (∀ r', r' ∈ rp_gdf rp → index r' = i → r' = r).
Proof.
  pose proof (invalid_rows_cons geoms Hinvalid) as Hcons.
  pose proof (Hbuffer g Hkind) as Hnone.
  eexists _, _, (switched (validated i g)).
  split; [apply (repair_attempted _ Hcons) |]. cbn [rp_gdf].
  split_and!; try done.
  - apply elem_of_kept. exists i, g. split_and!; [done | by apply Hempty | done].
  - simpl. intros Hg Hsame. rewrite Hsame in Hnone. congruence.
  - intros r' (i' & g' & Hg' & Hok & ->)%elem_of_kept. simpl. intros ->.
    rewrite Hrecord in Hg'. by injection Hg' as <-.
Qed.

(** C5. Over the geometries of the frame it is given, the kept frame of
    the run, the duplicate detector flags a row exactly when another row
    holds the same geometry, so every member of a group of equal
    geometries is flagged, the first one too; the rows reported are the
    flagged rows; and when the geometries are pairwise distinct nothing is
    flagged. *)
Theorem duplicates_flag_all_members (frame : list (Row Geom)) :
  outcome (detect_duplicates frame) =
    Return (Pandas.duplicated (geometry <$> frame),
            Pandas.bool_index frame (Pandas.duplicated (geometry <$> frame))) ∧
  length (Pandas.duplicated (geometry <$> frame)) = length frame ∧
  (∀ i, Pandas.duplicated (geometry <$> frame) !! i = Some true ↔
        ∃ j r r', j ≠ i ∧ frame !! i = Some r ∧ frame !! j = Some r' ∧
                  geometry r = geometry r') ∧
  (∀ r, r ∈ Pandas.bool_index frame (Pandas.duplicated (geometry <$> frame)) ↔
        ∃ i, frame !! i = Some r ∧
             Pandas.duplicated (geometry <$> frame) !! i = Some true) ∧
  (NoDup (geometry <$> frame) →
     (∀ i, Pandas.duplicated (geometry <$> frame) !! i ≠ Some true) ∧
     Pandas.bool_index frame (Pandas.duplicated (geometry <$> frame)) = [] ∧
     St Success NoDuplicates ∈ output (detect_duplicates frame)) ∧
  (∀ env producer file_name geoms outs vars,
     process env producer file_name geoms = (outs, Return vars) →
     gdf vars = rp_gdf (repaired vars) ∧
     outcome (repair (validate geoms)) = Return (repaired vars) ∧
     outcome (detect_duplicates (gdf vars))
       = Return (duplicates vars, duplicate_geometries vars)).
Proof.
  split_and!.
  - apply detect_duplicates_returns.
  - by rewrite length_duplicated, length_fmap.
  - intros i. rewrite lookup_duplicated. unfold Pandas.repeated. split.
    + intros (j & v & Hne & Hi & Hj). rewrite list_lookup_fmap in Hi, Hj.
      destruct (frame !! i) as [r |] eqn:Hr; [| done].
      destruct (frame !! j) as [r' |] eqn:Hr'; [| done].
      simpl in *. exists j, r, r'. split_and!; congruence.
    + intros (j & r & r' & Hne & Hi & Hj & Hsame).
      exists j, (geometry r). rewrite !list_lookup_fmap, Hi, Hj. simpl.
      split_and!; congruence.
  - intros r. apply elem_of_bool_index.
  - intros Hnd.
    assert (Pandas.bool_index frame (Pandas.duplicated (geometry <$> frame)) = [])
      as Hnil.
    { apply elem_of_nil_inv. intros r (i & _ & Hi)%elem_of_bool_index.
      by apply (duplicated_NoDup _ i Hnd). }
    split_and!; [intros i; by apply duplicated_NoDup | done |].
    unfold detect_duplicates, output. rewrite Hnil. simpl. by left.
  - intros env producer file_name geoms outs vars Hrun.
    destruct (repair_returns (validate geoms)) as (o1 & rp & Hrp).
    destruct (visualize env (rp_gdf rp)) as [o3 [[] | e]] eqn:Hmap.
    + rewrite (process_returns _ _ _ _ _ _ _ Hrp Hmap) in Hrun.
      injection Hrun as _ <-. cbn [gdf repaired duplicates duplicate_geometries].
      rewrite Hrp. split_and!; [done | done | apply detect_duplicates_returns].
    + pose proof (process_raises _ producer file_name _ _ _ _ _ Hrp Hmap) as Hraise.
      rewrite Hrun in Hraise. done.
Qed.

(** The count the event carries is the length of the frame the run ends
    with: the records of the batch less those left out as unrepairable. *)
Lemma total_features_kept env producer file_name geoms outs vars :
  process env producer file_name geoms = (outs, Return vars) →
  event vars = summary env file_name (gdf vars) ∧
  total_features (event vars) = length (gdf vars) ∧
  ((∃ g, g ∈ geoms ∧ is_valid g = false) →
     gdf vars = switched <$> repairable (validate geoms)) ∧
  ((∀ g, g ∈ geoms → is_valid g = true) → gdf vars = validate geoms).
Proof.
  intros Hrun.
  destruct (repair_returns (validate geoms)) as (o1 & rp & Hrp).
  destruct (visualize env (rp_gdf rp)) as [o3 [[] | e]] eqn:Hmap.
  - rewrite (process_returns _ _ _ _ _ _ _ Hrp Hmap) in Hrun.
    injection Hrun as _ <-. cbn [gdf event]. split_and!; [done | done | |].
    + intros Hsome. pose proof (invalid_rows_cons geoms Hsome) as Hcons.
      rewrite (repair_attempted _ Hcons) in Hrp. by injection Hrp as _ <-.
    + intros Hall. pose proof (proj2 (invalid_rows_nil geoms) Hall) as Hnil.
      rewrite (repair_skipped _ Hnil) in Hrp. by injection Hrp as _ <-.
  - pose proof (process_raises _ producer file_name _ _ _ _ _ Hrp Hmap) as Hraise.
    rewrite Hrun in Hraise. done.
Qed.

(** C8. Sending the event never raises: without a producer the call logs
    one error and does nothing else; when [send] or [flush] raises, the
    exception is caught and logged. What the run returns, the kept frame
    included, is the same whatever the producer does, and the script as a
    whole never ends with an exception. *)
Theorem publish_never_raises producer topic ev :
  outcome (@send_kafka_event Geom producer topic ev) = Return tt ∧
  (producer = None →
     output (@send_kafka_event Geom producer topic ev)
       = [Logging Error ProducerNotInitialized]) ∧
  (∀ p e, producer = Some p → send p topic ev = Raise e →
     output (@send_kafka_event Geom producer topic ev)
       = [Logging Error (ErrorSending e)]) ∧
  (∀ p e, producer = Some p → send p topic ev = Return tt →
     flush p = Raise e →
     output (@send_kafka_event Geom producer topic ev)
       = [Logging Error (ErrorSending e)]) ∧
  (∀ p, producer = Some p → send p topic ev = Return tt →
     flush p = Return tt →
     output (@send_kafka_event Geom producer topic ev)
       = [Logging Info (EventSent ev)]) ∧
  (∀ env file_name geoms producer',
     outcome (process env producer file_name geoms)
       = outcome (process env producer' file_name geoms)) ∧
  (∀ env file, ∃ result, outcome (main env producer file) = Return result).
Proof.
  split_and!.
  - apply send_kafka_event_returns.
  - by intros ->.
  - intros p e -> Hsend. unfold send_kafka_event, output.
    unfold mbind, M_bind, call, tell, try_except. by rewrite Hsend.
  - intros p e -> Hsend Hflush. unfold send_kafka_event, output.
    unfold mbind, M_bind, call, tell, try_except. by rewrite Hsend, Hflush.
  - intros p -> Hsend Hflush. unfold send_kafka_event, output.
    unfold mbind, M_bind, call, tell, try_except. by rewrite Hsend, Hflush.
  - intros env file_name geoms producer'.
    destruct (repair_returns (validate geoms)) as (o1 & rp & Hrp).
    destruct (visualize env (rp_gdf rp)) as [o3 [[] | e]] eqn:Hmap.
    + by rewrite !(process_returns _ _ _ _ _ _ _ Hrp Hmap).
    + by rewrite !(process_raises _ _ _ _ _ _ _ _ Hrp Hmap).
  - intros env [file |]; [| by eexists].
    unfold main, try_except, outcome.
    unfold mbind, M_bind, call, tell, mret, M_ret.
    destruct (read_file file) as [geoms | e]; [| by eexists].
    destruct (process env producer (name file) geoms) as [o [vars | e]];
      by eexists.
Qed.

(** C9. On an empty batch the run returns normally: the frame it ends
    with is empty, no issue and no duplicate is reported, nothing is
    drawn, the "no valid geometries" message is shown and logged instead,
    and the event is handed to the publisher with a count of zero. *)
Theorem empty_batch env producer file_name :
  process env producer file_name [] =
    ([Logger Info FileLoaded; Dataframe (Preview []);
      St Success AllValid; Logger Info AllValid;
      St Success NoDuplicates; Logger Info NoDuplicates;
      St Error NoValidToVisualize; Logger Error NoValidToVisualize;
      St Info (ProcessingTime (time_end env - time_start env))]
     ++ output (@send_kafka_event Geom producer "geojson_upload_events"
                  (summary env file_name [])),
     Return {| gdf := [];
               repaired := {| rp_gdf := []; rp_invalid_geometries := [];
                              rp_fixed := None; rp_still_invalid := None |};
               duplicates := []; duplicate_geometries := [];
               event := summary env file_name [] |}) ∧
  total_features (summary env file_name []) = 0 ∧
  (∀ overlay, Folium overlay ∉ output (process env producer file_name [])) ∧
  (∀ t, Dataframe t ∈ output (process env producer file_name []) →
        t = Preview []) ∧
  outcome (main env producer
             (Some {| name := file_name; read_file := Return [] |}))
    = Return (Some {| gdf := [];
               repaired := {| rp_gdf := []; rp_invalid_geometries := [];
                              rp_fixed := None; rp_still_invalid := None |};
               duplicates := []; duplicate_geometries := [];
               event := summary env file_name [] |}).
Proof.
  assert (process env producer file_name [] =
    ([Logger Info FileLoaded; Dataframe (Preview []);
      St Success AllValid; Logger Info AllValid;
      St Success NoDuplicates; Logger Info NoDuplicates;
      St Error NoValidToVisualize; Logger Error NoValidToVisualize;
      St Info (ProcessingTime (time_end env - time_start env))]
     ++ output (@send_kafka_event Geom producer "geojson_upload_events"
                  (summary env file_name [])),
     Return {| gdf := [];
               repaired := {| rp_gdf := []; rp_invalid_geometries := [];
                              rp_fixed := None; rp_still_invalid := None |};
               duplicates := []; duplicate_geometries := [];
               event := summary env file_name [] |})) as Hrun.
  { by rewrite (process_returns env producer file_name [] _ _ _
                  (repair_skipped [] eq_refl) (visualize_empty env)). }
  split_and!; [done | done | | |].
  - intros overlay Hin. rewrite Hrun in Hin. unfold output at 1 in Hin.
    cbn [fst] in Hin. apply elem_of_app in Hin as [Hin | Hin]; [shown Hin |].
    by apply output_send_kafka_event in Hin as (? & ? & ?).
  - intros t Hin. rewrite Hrun in Hin. unfold output at 1 in Hin.
    cbn [fst] in Hin. apply elem_of_app in Hin as [Hin | Hin].
    + shown Hin. by injection Hin.
    + by apply output_send_kafka_event in Hin as (? & ? & ?).
  - unfold main, try_except, outcome.
    unfold mbind, M_bind, mret, M_ret, call. cbn [name read_file].
    by rewrite Hrun.
Qed.
End claims.

(** ** The script on the sample library *)

Section sample_runs.
Import Sample.

Example executor_out_of_order :
  Executor.run parallel_validate [Square; Bowtie; Dot] [2; 0; 1]
    = [parallel_validate Square; parallel_validate Bowtie; parallel_validate Dot].
Proof. reflexivity. Qed.

Example executor_unfinished :
  Executor.run parallel_validate [Square; Bowtie; Dot] [2; 1]
    = ([] : list Verdict).
Proof. reflexivity. Qed.

Example duplicated_groups :
  Pandas.duplicated [Square; Dot; Square; Path; Dot; Square; NoArea]
    = [true; true; true; false; true; true; false].
Proof. vm_compute. reflexivity. Qed.

Example buffered_points_are_duplicates :
  ∃ outs rp,
    repair (validate [Bowtie; Dot; Path]) = (outs, Return rp) ∧
    Pandas.duplicated (geometry <$> rp_gdf rp) = [false; true; true].
Proof. eexists _, _. split; [reflexivity |]. vm_compute. reflexivity. Qed.

(** The explanation of every invalid sample is a text. *)
Lemma parallel_validate_issue_witness :
  (∀ g : shape, is_valid g = false → explain_validity g ≠ "") ∧
  v_valid (parallel_validate Bowtie) = is_valid Bowtie ∧
  (is_valid Bowtie = true → v_issue (parallel_validate Bowtie) = None) ∧
  (is_valid Bowtie = false →
     ∃ text, v_issue (parallel_validate Bowtie) = Some text ∧ text ≠ "") ∧
  (v_issue (parallel_validate Bowtie) ≠ None ↔
     v_valid (parallel_validate Bowtie) = false).
Proof.
  assert (∀ g : shape, is_valid g = false → explain_validity g ≠ "") as Hexplain.
  { intros g Hg. destruct g; simpl in *; discriminate. }
  split; [exact Hexplain | exact (parallel_validate_issue Hexplain Bowtie)].
Defined.



(** A valid square next to a bowtie: the pass runs and the square, which
    the buffer gives back unchanged, keeps its geometry. *)
Lemma final_geometry_of_valid_witness :
  [Bowtie; Square] !! 1 = Some Square ∧ is_valid Square = true ∧
  ∃ outs rp,
    repair (validate [Bowtie; Square]) = (outs, Return rp) ∧
    ((∀ g', g' ∈ [Bowtie; Square] → is_valid g' = true) →
       ∃ r, rp_gdf rp !! 1 = Some r ∧ index r = 1 ∧ geometry r = Square) ∧
    ((∃ g', g' ∈ [Bowtie; Square] ∧ is_valid g' = false) →
       (is_valid (buffer Square 0) = true →
          ∃ r, r ∈ rp_gdf rp ∧ index r = 1 ∧ geometry r = buffer Square 0) ∧
       (is_valid (buffer Square 0) = false →
          ∀ r, r ∈ rp_gdf rp → index r ≠ 1) ∧
       (buffer Square 0 = Square →
          ∃ r, r ∈ rp_gdf rp ∧ index r = 1 ∧ geometry r = Square)).
Proof.
  split; [reflexivity |]. split; [reflexivity |].
  exact (final_geometry_of_valid [Bowtie; Square] 1 Square eq_refl eq_refl).
Defined.

(** C6 as stated fails on the code: a valid point in a batch that also
    holds an invalid polygon is kept, but with the empty polygon the
    zero-width buffer made of it, not with the point it came with. *)
Lemma valid_point_gets_buffered :
  [Bowtie; Dot] !! 1 = Some Dot ∧ is_valid Dot = true ∧
  ∃ outs rp r,
    repair (validate [Bowtie; Dot]) = (outs, Return rp) ∧
    (λ r, (index r, geometry r)) <$> rp_gdf rp = [(0, Triangles); (1, NoArea)] ∧
    rp_gdf rp !! 1 = Some r ∧ index r = 1 ∧
    geometry r = NoArea ∧ geometry r ≠ Dot.
Proof.
  split; [reflexivity |]. split; [reflexivity |].
  eexists _, _, _. split; [reflexivity |].
  split; [reflexivity |]. split; [reflexivity |].
  split; [reflexivity |]. split; [reflexivity | discriminate].
Qed.

(** A point next to a bowtie. *)
Lemma non_areal_becomes_empty_witness :
  (∀ g : shape, non_areal (geom_type g) = true → is_empty (buffer g 0) = true) ∧
  (∀ g : shape, is_empty g = true → is_valid g = true) ∧
  (∃ g', g' ∈ [Bowtie; Dot] ∧ is_valid g' = false) ∧
  [Bowtie; Dot] !! 1 = Some Dot ∧
  is_valid Dot = true ∧
  non_areal (geom_type Dot) = true ∧
  ∃ outs rp r,
    repair (validate [Bowtie; Dot]) = (outs, Return rp) ∧
    r ∈ rp_gdf rp ∧ index r = 1 ∧
    geometry r = buffer Dot 0 ∧ is_empty (geometry r) = true ∧
    (is_empty Dot = false → geometry r ≠ Dot) ∧
    (∀ r', r' ∈ rp_gdf rp → index r' = 1 → r' = r).
Proof.
  assert (∀ g : shape, non_areal (geom_type g) = true →
            is_empty (buffer g 0) = true) as Hbuffer.
  { intros g Hg. destruct g; simpl in *; (reflexivity || discriminate). }
  assert (∀ g : shape, is_empty g = true → is_valid g = true) as Hempty.
  { intros g Hg. destruct g; simpl in *; (reflexivity || discriminate). }
  assert (∃ g', g' ∈ [Bowtie; Dot] ∧ is_valid g' = false) as Hinvalid.
  { exists Bowtie. split; [by left | reflexivity]. }
  split; [exact Hbuffer |]. split; [exact Hempty |].
  split; [exact Hinvalid |]. split; [reflexivity |].
  split; [reflexivity |]. split; [reflexivity |].
  exact (non_areal_becomes_empty Hbuffer Hempty [Bowtie; Dot] 1 Dot
           Hinvalid eq_refl eq_refl eq_refl).
Defined.

(** C7 on the code: of two uploaded features, one of them unrepairable,
    the event reports one. *)
Theorem event_counts_kept_rows :
  ∃ outs vars,
    process env (Some broker) "upload.geojson" [Square; Broken]
      = (outs, Return vars) ∧
    length [Square; Broken] = 2 ∧
    (index <$> gdf vars) = [0] ∧
    event vars = {| filename := "upload.geojson";
                    timestamp := "2024-01-01T00:00:00";
                    processing_time := 7;
                    total_features := 1 |} ∧
    Logging Info (EventSent (event vars)) ∈ outs.
Proof.
  eexists _, _. split; [vm_compute; reflexivity |].
  split; [reflexivity |]. split; [reflexivity |]. split; [reflexivity |].
  do 14 right. left.
Qed.
End sample_runs.

(** ** Further properties of the two files *)

Section more_facts.
Context `{Shapely Geom}.
Implicit Types (geoms : list Geom) (r : Row Geom).
Implicit Types (env : Env Geom) (producer : option Producer).

Lemma process_outcome_any_producer env producer producer' file_name geoms :
  outcome (process env producer file_name geoms)
    = outcome (process env producer' file_name geoms).
Proof.
  destruct (repair_returns (validate geoms)) as (o1 & rp & Hrp).
  destruct (visualize env (rp_gdf rp)) as [o3 [[] | e]] eqn:Hmap.
  - by rewrite !(process_returns _ _ _ _ _ _ _ Hrp Hmap).
  - by rewrite !(process_raises _ _ _ _ _ _ _ _ Hrp Hmap).
Qed.

Lemma main_outcome_any_producer env producer producer' file :
  outcome (main env producer file) = outcome (main env producer' file).
Proof.
  destruct file as [file |]; [| done].
  unfold main, try_except, outcome.
  unfold mbind, M_bind, call, tell, mret, M_ret.
  destruct (read_file file) as [geoms | e]; [| done].
  pose proof (process_outcome_any_producer env producer producer'
                (name file) geoms) as Hsame.
  unfold outcome in Hsame.
  destruct (process env producer (name file) geoms) as [o [vars | e]];
    destruct (process env producer' (name file) geoms) as [o' [vars' | e']];
    simpl in *; congruence.
Qed.

Lemma main_returns env producer file :
  ∃ result, outcome (main env producer file) = Return result.
Proof.
  destruct file as [file |]; [| by eexists].
  unfold main, try_except, outcome.
  unfold mbind, M_bind, call, tell, mret, M_ret.
  destruct (read_file file) as [geoms | e]; [| by eexists].
  destruct (process env producer (name file) geoms) as [o [vars | e]];
    by eexists.
Qed.

(** X1. The script survives a Kafka outage: whatever the constructor of
    the producer does, the script returns normally; when the constructor
    raises, the outage is logged first, the rest of the run is the run
    without a producer, and its result is the one any working producer
    would have given. *)
Theorem kafka_outage_is_survived (connect : exc Producer) env file :
  (∃ result, outcome (app connect env file) = Return result) ∧
  (∀ e, connect = Raise e →
     output (app connect env file)
       = Logging Error (ErrorInitializing e) :: output (main env None file) ∧
     ∀ producer, outcome (app connect env file) = outcome (main env producer file)) ∧
  (∀ p, connect = Return p →
     app connect env file
       = (Logging Info ProducerInitialized :: output (main env (Some p) file),
          outcome (main env (Some p) file))).
Proof.
  split_and!.
  - unfold app, get_kafka_producer, try_except, outcome.
    unfold mbind, M_bind, call, tell, mret, M_ret.
    destruct connect as [p | e]; simpl.
    + destruct (main_returns env (Some p) file) as [result Hresult].
      unfold outcome in Hresult.
      destruct (main env (Some p) file) as [o r]. simpl in *. by exists result.
    + destruct (main_returns env None file) as [result Hresult].
      unfold outcome in Hresult.
      destruct (main env None file) as [o r]. simpl in *. by exists result.
  - intros e ->. unfold app, get_kafka_producer, try_except.
    unfold mbind, M_bind, call, tell, mret, M_ret. simpl.
    split.
    + unfold output. by destruct (main env None file).
    + intros producer. rewrite <- (main_outcome_any_producer env None producer).
      unfold outcome. by destruct (main env None file).
  - intros p ->. unfold app, get_kafka_producer, try_except, output, outcome.
    unfold mbind, M_bind, call, tell, mret, M_ret. simpl.
    by destruct (main env (Some p) file).
Qed.





Lemma rp_gdf_of_repair (frame : list (Row Geom)) o1 rp :
  repair frame = (o1, Return rp) → rp_gdf_of (repair frame) = rp_gdf rp.
Proof. intros Hrp. unfold rp_gdf_of, outcome. by rewrite Hrp. Qed.


(** X4. Validation only adds columns: the frame keeps the rows of the
    file in their order, labelled 0, 1, ..., with the geometries they came
    with; no repair column exists yet; and a row has an issue exactly when
    it is marked invalid. *)
Theorem validation_only_adds_columns geoms :
  index <$> validate geoms = seq 0 (length geoms) ∧
  geometry <$> validate geoms = geoms ∧
  valid <$> validate geoms = is_valid <$> geoms ∧
  (∀ r, r ∈ validate geoms →
     geometry_fixed r = None ∧ valid_fixed r = None ∧
     valid r = is_valid (geometry r) ∧
     (issue r = None ↔ valid r = true)).
Proof.
  split_and!.
  - apply list_eq. intros i. rewrite list_lookup_fmap, lookup_validate.
    destruct (geoms !! i) as [g |] eqn:Hg; simpl.
    + by rewrite lookup_seq_lt by (by eapply lookup_lt_Some).
    + by rewrite lookup_seq_ge by (by apply lookup_ge_None).
  - apply list_eq. intros i. rewrite list_lookup_fmap, lookup_validate.
    by destruct (geoms !! i).
  - apply list_eq. intros i. rewrite !list_lookup_fmap, lookup_validate.
    by destruct (geoms !! i).
  - intros r (i & g & Hg & ->)%elem_of_validate. simpl.
    split_and!; [done | done | done |].
    destruct (is_valid g); split; done.
Qed.

Lemma length_filter_split (frame : list (Row Geom)) :
  length (repairable frame) + length (unrepairable frame) = length frame.
Proof.
  unfold repairable, unrepairable.
  induction frame as [| r frame IH]; [done |].
  rewrite !filter_cons.
  destruct (is_valid (buffer (geometry r) 0)) eqn:Hr.
  - rewrite decide_True, decide_False by done. simpl. lia.
  - rewrite decide_False, decide_True by done. simpl. lia.
Qed.

(** X5. A repair attempt splits the batch: every record is either kept or
    listed as unrepairable, never both, so the two counts add up to the
    size of the batch; both frames keep the original labels, in the
    original order. *)
Theorem repair_splits_batch geoms
    (Hinvalid : ∃ g, g ∈ geoms ∧ is_valid g = false) :
  ∃ outs rp still,
    repair (validate geoms) = (outs, Return rp) ∧
    rp_still_invalid rp = Some still ∧
    length (rp_gdf rp) + length still = length geoms ∧
    index <$> rp_gdf rp `sublist_of` seq 0 (length geoms) ∧
    index <$> still `sublist_of` seq 0 (length geoms) ∧
    (∀ i, i ∈ index <$> rp_gdf rp → i ∉ index <$> still).
Proof.
  pose proof (invalid_rows_cons geoms Hinvalid) as Hcons.
  eexists _, _, _. split; [apply (repair_attempted _ Hcons) |].
  cbn [rp_gdf rp_still_invalid]. split; [done |].
  assert (index <$> validate geoms = seq 0 (length geoms)) as Hlabels.
  { apply list_eq. intros i. rewrite list_lookup_fmap, lookup_validate.
    destruct (geoms !! i) as [g |] eqn:Hg; simpl.
    + by rewrite lookup_seq_lt by (by eapply lookup_lt_Some).
    + by rewrite lookup_seq_ge by (by apply lookup_ge_None). }
  split_and!.
  - rewrite !length_fmap, length_filter_split. apply length_validate.
  - rewrite <- list_fmap_compose, <- Hlabels.
    apply (fmap_sublist index). apply sublist_filter.
  - rewrite <- list_fmap_compose, <- Hlabels.
    apply (fmap_sublist index). apply sublist_filter.
  - intros i (r & -> & Hr)%list_elem_of_fmap (r' & Hsame & Hr')%list_elem_of_fmap.
    apply elem_of_kept in Hr as (k & g & Hg & Hok & ->).
    apply elem_of_still in Hr' as (k' & g' & Hg' & Hbad & ->).
    simpl in Hsame. subst k'. rewrite Hg in Hg'. injection Hg' as <-.
    congruence.
Qed.

(** X6. The repair does not revalidate: a kept row carries the repaired
    geometry, which is valid, next to the [valid] flag and the [issue] text
    of the geometry it came with. A record that was invalid and could be
    repaired is kept with [valid = false] and its old issue. *)
Theorem kept_rows_keep_first_verdict geoms
    (Hinvalid : ∃ g, g ∈ geoms ∧ is_valid g = false) :
  ∃ outs rp,
    repair (validate geoms) = (outs, Return rp) ∧
    (∀ r, r ∈ rp_gdf rp →
       ∃ g, geoms !! index r = Some g ∧
            geometry r = buffer g 0 ∧ is_valid (geometry r) = true ∧
            valid r = is_valid g ∧ issue r = v_issue (parallel_validate g) ∧
            geometry_fixed r = None ∧ valid_fixed r = Some true) ∧
    (∀ i g, geoms !! i = Some g → is_valid g = false →
       is_valid (buffer g 0) = true →
       ∃ r, r ∈ rp_gdf rp ∧ index r = i ∧ is_valid (geometry r) = true ∧
            valid r = false ∧ issue r = Some (explain_validity g)).
Proof.
  pose proof (invalid_rows_cons geoms Hinvalid) as Hcons.
  eexists _, _. split; [apply (repair_attempted _ Hcons) |]. cbn [rp_gdf].
  split.
  - intros r (i & g & Hg & Hok & ->)%elem_of_kept. exists g. simpl.
    by rewrite Hok.
  - intros i g Hg Hbad Hok. exists (switched (validated i g)).
    split; [apply elem_of_kept; by exists i, g |]. simpl.
    by rewrite Hbad.
Qed.

(** X7. The count in the event of a completed run is the number of kept
    records: together with the records listed as unrepairable it makes up
    the batch, so it is the size of the upload exactly when no record was
    left out. *)
Theorem total_features_and_unrepairable env producer file_name geoms outs vars
    (Hrun : process env producer file_name geoms = (outs, Return vars)) :
  total_features (event vars) = length (gdf vars) ∧
  total_features (event vars)
    + length (default [] (rp_still_invalid (repaired vars))) = length geoms ∧
  (total_features (event vars) = length geoms ↔
     default [] (rp_still_invalid (repaired vars)) = []).
Proof.
  destruct (repair_returns (validate geoms)) as (o1 & rp & Hrp).
  destruct (visualize env (rp_gdf rp)) as [o3 [[] | e]] eqn:Hmap.
  - rewrite (process_returns _ _ _ _ _ _ _ Hrp Hmap) in Hrun.
    injection Hrun as _ <-. cbn [gdf event repaired summary total_features].
    assert (length (rp_gdf rp) + length (default [] (rp_still_invalid rp))
            = length geoms) as Hsum.
    { destruct (all_valid_dec geoms) as [Hall | Hsome].
      - pose proof (proj2 (invalid_rows_nil geoms) Hall) as Hnil.
        rewrite (repair_skipped _ Hnil) in Hrp. injection Hrp as _ <-.
        simpl. rewrite length_validate. lia.
      - pose proof (invalid_rows_cons geoms Hsome) as Hcons.
        rewrite (repair_attempted _ Hcons) in Hrp. injection Hrp as _ <-.
        simpl. rewrite !length_fmap, length_filter_split. apply length_validate. }
    split_and!; [done | done |].
    destruct (default [] (rp_still_invalid rp)) as [| r0 l]; simpl in *.
    + split; [done | lia].
    + split; [lia | done].
  - pose proof (process_raises _ producer file_name _ _ _ _ _ Hrp Hmap) as Hraise.
    rewrite Hrun in Hraise. done.
Qed.

Lemma bool_index_one {X} (df : list X) (mask : list bool) i :
  is_Some (df !! i) → mask !! i = Some true →
  1 ≤ length (Pandas.bool_index df mask).
Proof.
  revert mask i. induction df as [| x df IH]; intros [| b mask] i Hdf Hmask;
    try done; [by destruct Hdf |].
  destruct i as [| i]; simpl in *.
  - injection Hmask as ->. simpl. lia.
  - specialize (IH mask i Hdf Hmask). destruct b; simpl; lia.
Qed.

Lemma bool_index_two {X} (df : list X) (mask : list bool) i j :
  i ≠ j →
  is_Some (df !! i) → mask !! i = Some true →
  is_Some (df !! j) → mask !! j = Some true →
  2 ≤ length (Pandas.bool_index df mask).
Proof.
  revert mask i j.
  induction df as [| x df IH]; intros [| b mask] i j Hne Hi Hmi Hj Hmj;
    try done; [by destruct Hi |].
  destruct i as [| i], j as [| j]; simpl in *; [done | | |].
  - injection Hmi as ->. simpl.
    pose proof (bool_index_one df mask j Hj Hmj). lia.
  - injection Hmj as ->. simpl.
    pose proof (bool_index_one df mask i Hi Hmi). lia.
  - assert (i ≠ j) as Hne' by congruence.
    specialize (IH mask i j Hne' Hi Hmi Hj Hmj). destruct b; simpl; lia.
Qed.

(** X8. Duplicates come at least in pairs: the rows reported as duplicates
    are never exactly one. When rows are flagged, what is shown and logged
    is the warning with the count of all of them (two or more) and the
    table of the first ten; when none is flagged it is the "no duplicates"
    message, and nothing else in either case. *)
Theorem duplicates_come_in_pairs (frame : list (Row Geom)) :
  length (Pandas.bool_index frame (Pandas.duplicated (geometry <$> frame))) ≠ 1 ∧
  (∀ n, St Warning (DetectedDuplicates n) ∈ output (detect_duplicates frame) →
     2 ≤ n ∧
     n = length (Pandas.bool_index frame (Pandas.duplicated (geometry <$> frame)))) ∧
  (St Success NoDuplicates ∈ output (detect_duplicates frame) ↔
     Pandas.bool_index frame (Pandas.duplicated (geometry <$> frame)) = []) ∧
  (Pandas.bool_index frame (Pandas.duplicated (geometry <$> frame)) ≠ [] →
     2 ≤ length (Pandas.bool_index frame (Pandas.duplicated (geometry <$> frame))) ∧
     output (detect_duplicates frame) =
       [St Warning (DetectedDuplicates
          (length (Pandas.bool_index frame (Pandas.duplicated (geometry <$> frame)))));
        Logger Warning (DetectedDuplicates
          (length (Pandas.bool_index frame (Pandas.duplicated (geometry <$> frame)))));
        Dataframe (Attributes (Pandas.head 10
          ((λ r, (index r, valid r, issue r, valid_fixed r))
             <$> Pandas.bool_index frame (Pandas.duplicated (geometry <$> frame)))))]) ∧
  (Pandas.bool_index frame (Pandas.duplicated (geometry <$> frame)) = [] →
     output (detect_duplicates frame)
       = [St Success NoDuplicates; Logger Info NoDuplicates]).
Proof.
  assert (∀ r l,
    Pandas.bool_index frame (Pandas.duplicated (geometry <$> frame)) = r :: l →
    2 ≤ length (r :: l)) as Hpairs.
  { intros r l Hflagged. rewrite <- Hflagged.
    assert (r ∈ Pandas.bool_index frame (Pandas.duplicated (geometry <$> frame)))
      as (i & Hi & Hflag)%elem_of_bool_index by (rewrite Hflagged; left).
    pose proof Hflag as (j & v & Hne & Hvi & Hvj)%lookup_duplicated.
    assert (Pandas.duplicated (geometry <$> frame) !! j = Some true) as Hflag'.
    { apply lookup_duplicated. by exists i, v. }
    rewrite list_lookup_fmap in Hvj.
    destruct (frame !! j) as [r' |] eqn:Hj; [| done].
    apply (bool_index_two frame _ i j); eauto. }
  split_and!.
  - destruct (Pandas.bool_index frame _) as [| r l] eqn:Hflagged; [done |].
    specialize (Hpairs r l eq_refl). lia.
  - intros n Hin. unfold detect_duplicates, output in Hin.
    destruct (Pandas.bool_index frame _) as [| r l] eqn:Hflagged;
      cbn in Hin; shown Hin.
    injection Hin as ->. split; [by apply (Hpairs r l) | done].
  - unfold detect_duplicates, output.
    destruct (Pandas.bool_index frame _) as [| r l] eqn:Hflagged; cbn.
    + split; [done | intros _; by left].
    + split; [intros Hin; shown Hin | done].
  - unfold detect_duplicates, output.
    destruct (Pandas.bool_index frame _) as [| r l] eqn:Hflagged; [done |].
    intros _. split; [by apply (Hpairs r l) | done].
  - intros Hnone. unfold detect_duplicates, output. by rewrite Hnone.
Qed.

(** X9. After a repair attempt duplicates are sought among the repaired
    geometries: two records whose zero-width buffers are equal and valid are
    both reported as duplicates, whether or not the geometries they came
    with were equal. *)
Theorem duplicates_compare_repaired geoms i j gi gj
    (Hinvalid : ∃ g, g ∈ geoms ∧ is_valid g = false)
    (Hi : geoms !! i = Some gi) (Hj : geoms !! j = Some gj) (Hne : i ≠ j)
    (Hsame : buffer gi 0 = buffer gj 0)
    (Hok : is_valid (buffer gi 0) = true) :
  ∃ outs rp ri rj,
    repair (validate geoms) = (outs, Return rp) ∧
    index ri = i ∧ index rj = j ∧
    geometry ri = buffer gi 0 ∧ geometry rj = buffer gi 0 ∧
    ri ∈ Pandas.bool_index (rp_gdf rp) (Pandas.duplicated (geometry <$> rp_gdf rp)) ∧
    rj ∈ Pandas.bool_index (rp_gdf rp) (Pandas.duplicated (geometry <$> rp_gdf rp)).
Proof.
  pose proof (invalid_rows_cons geoms Hinvalid) as Hcons.
  exists (output (repair (validate geoms))),
    {| rp_gdf := switched <$> repairable (validate geoms);
       rp_invalid_geometries := filter (λ r, valid r = false) (validate geoms);
       rp_fixed := Some (with_fix <$> validate geoms);
       rp_still_invalid := Some (with_fix <$> unrepairable (validate geoms)) |},
    (switched (validated i gi)), (switched (validated j gj)).
  split; [by rewrite (repair_attempted _ Hcons) |]. cbn [rp_gdf].
  assert (switched (validated i gi) ∈ switched <$> repairable (validate geoms))
    as (a & Ha)%list_elem_of_lookup_1.
  { apply elem_of_kept. by exists i, gi. }
  assert (switched (validated j gj) ∈ switched <$> repairable (validate geoms))
    as (b & Hb)%list_elem_of_lookup_1.
  { apply elem_of_kept. exists j, gj. split_and!; [done | congruence | done]. }
  assert (a ≠ b) as Hab.
  { intros Heq. rewrite Heq, Hb in Ha.
    unfold switched, validated in Ha. simpl in Ha. congruence. }
  split_and!; [done | done | done | by simpl | |].
  - apply elem_of_bool_index. exists a. split; [done |].
    apply lookup_duplicated. exists b, (buffer gi 0).
    split_and!; [done | by rewrite list_lookup_fmap, Ha |].
    rewrite list_lookup_fmap, Hb. simpl. by rewrite Hsame.
  - apply elem_of_bool_index. exists b. split; [done |].
    apply lookup_duplicated. exists a, (buffer gi 0).
    split_and!; [done | | by rewrite list_lookup_fmap, Ha].
    rewrite list_lookup_fmap, Hb. simpl. by rewrite Hsame.
Qed.


End more_facts.

(** ** The pool makes progress *)

Section executor_progress.
Context {A B : Type} (fn : A → B).
Implicit Types (args : list A) (p : Executor.pool B).

Lemma finished_replicate n :
  filter is_Some (replicate n (@None B)) = [].
Proof.
  induction n as [| n IH]; [done |]. simpl.
  by rewrite filter_cons, decide_False by apply is_Some_None.
Qed.

Lemma finished_insert (fs : list (option B)) i b :
  fs !! i = Some None →
  length (filter is_Some (<[i := Some b]> fs)) = S (length (filter is_Some fs)).
Proof.
  revert i. induction fs as [| f fs IH]; intros [| i] Hi; simpl in *; try done.
  - injection Hi as ->. rewrite !filter_cons.
    by rewrite (decide_False (P := is_Some None)) by apply is_Some_None.
  - rewrite !filter_cons. specialize (IH i Hi).
    destruct (decide (is_Some f)); simpl; lia.
Qed.

Lemma pool_work_step args p q :
  Executor.step fn args p q → pool_work q = S (pool_work p).
Proof.
  intros [i a fs out Hrun Harg | b fs out Hnext]; unfold pool_work; simpl.
  - by rewrite finished_insert.
  - rewrite length_app. simpl. lia.
Qed.

Lemma pool_work_nsteps args n p :
  nsteps (Executor.step fn args) n (Executor.submitted args) p →
  pool_work p = n.
Proof.
  revert p. induction n as [| n IH]; intros p Hrun.
  - inversion Hrun; subst. unfold pool_work, Executor.submitted. simpl.
    by rewrite finished_replicate.
  - apply nsteps_inv_r in Hrun as (q & Hq & Hstep).
    rewrite (pool_work_step _ _ _ Hstep). f_equal. by apply IH.
Qed.

Lemma pool_work_bound args p :
  Executor.pool_inv fn args p → pool_work p ≤ 2 * length args.
Proof.
  intros [[Hlen _] Hout]. unfold pool_work.
  pose proof (length_filter is_Some (Executor.futures p)) as Hdone.
  assert (length (Executor.collected p) ≤ length args) as Hread.
  { rewrite Hout, length_fmap, length_take. lia. }
  lia.
Qed.

Lemma pool_progress args p :
  Executor.pool_inv fn args p → ¬ Executor.drained args p →
  ∃ q, Executor.step fn args p q.
Proof.
  destruct p as [fs out]. intros [[Hlen Hdone] Hout] Hmore.
  unfold Executor.drained in Hmore. simpl in *.
  assert (length out < length args) as Hlt.
  { assert (length out ≤ length args); [| lia].
    rewrite Hout, length_fmap, length_take. lia. }
  destruct (lookup_lt_is_Some_2 args (length out) Hlt) as [a Ha].
  destruct (lookup_lt_is_Some_2 fs (length out)) as [[b |] Hf]; [lia | |].
  - eexists. by apply Executor.step_collect.
  - eexists. by eapply Executor.step_complete.
Qed.

(** X10. Validation in the pool always finishes: a pool that has taken
    [n] steps has finished and read [n] things in all, which is never more
    than twice the number of geometries, and as long as a result is unread
    some step is possible, so no order of completion leaves the reader
    waiting for ever. *)
Theorem validation_pool_finishes args n p
    (Hrun : nsteps (Executor.step fn args) n (Executor.submitted args) p) :
  n = pool_work p ∧
  n ≤ 2 * length args ∧
  (¬ Executor.drained args p → ∃ q, Executor.step fn args p q) ∧
  (Executor.drained args p → Executor.collected p = Executor.map fn args).
Proof.
  pose proof (pool_inv_rtc fn args p (rtc_nsteps_2 _ _ _ Hrun)) as Hinv.
  pose proof (pool_work_nsteps args n p Hrun) as Hwork.
  split_and!.
  - done.
  - rewrite <- Hwork. by apply pool_work_bound.
  - by apply pool_progress.
  - by apply pool_inv_drained.
Qed.
End executor_progress.

(** ** More runs on the sample library *)

Section more_runs.
Import Sample.

Example outage_run :
  app (Raise (Exception "NoBrokersAvailable")) env
      (Some {| name := "a.geojson"; read_file := Return [Square] |})
  = ([Logging Error (ErrorInitializing (Exception "NoBrokersAvailable"));
      Logger Info FileLoaded; Dataframe (Preview [0]);
      St Success AllValid; Logger Info AllValid;
      St Success NoDuplicates; Logger Info NoDuplicates;
      Folium [Square]; St Success Visualized; Logger Info Visualized;
      St Info (ProcessingTime 7);
      Logging Error ProducerNotInitialized],
     outcome (main env (Some broker)
                (Some {| name := "a.geojson"; read_file := Return [Square] |}))).
Proof. vm_compute. reflexivity. Qed.


(** Four records, one of them unrepairable. *)
Lemma repair_splits_batch_witness :
  (∃ g, g ∈ [Bowtie; Dot; Broken; Square] ∧ is_valid g = false) ∧
  ∃ outs rp still,
    repair (validate [Bowtie; Dot; Broken; Square]) = (outs, Return rp) ∧
    rp_still_invalid rp = Some still ∧
    length (rp_gdf rp) + length still = length [Bowtie; Dot; Broken; Square] ∧
    index <$> rp_gdf rp `sublist_of` seq 0 (length [Bowtie; Dot; Broken; Square]) ∧
    index <$> still `sublist_of` seq 0 (length [Bowtie; Dot; Broken; Square]) ∧
    (∀ i, i ∈ index <$> rp_gdf rp → i ∉ index <$> still).
Proof.
  assert (∃ g, g ∈ [Bowtie; Dot; Broken; Square] ∧ is_valid g = false)
    as Hinvalid.
  { exists Bowtie. split; [by left | reflexivity]. }
  split; [exact Hinvalid |].
  exact (repair_splits_batch [Bowtie; Dot; Broken; Square] Hinvalid).
Defined.

(** A bowtie that the buffer repairs. *)
Lemma kept_rows_keep_first_verdict_witness :
  (∃ g, g ∈ [Square; Bowtie] ∧ is_valid g = false) ∧
  ∃ outs rp,
    repair (validate [Square; Bowtie]) = (outs, Return rp) ∧
    (∀ r, r ∈ rp_gdf rp →
       ∃ g, [Square; Bowtie] !! index r = Some g ∧
            geometry r = buffer g 0 ∧ is_valid (geometry r) = true ∧
            valid r = is_valid g ∧ issue r = v_issue (parallel_validate g) ∧
            geometry_fixed r = None ∧ valid_fixed r = Some true) ∧
    (∀ i g, [Square; Bowtie] !! i = Some g → is_valid g = false →
       is_valid (buffer g 0) = true →
       ∃ r, r ∈ rp_gdf rp ∧ index r = i ∧ is_valid (geometry r) = true ∧
            valid r = false ∧ issue r = Some (explain_validity g)).
Proof.
  assert (∃ g, g ∈ [Square; Bowtie] ∧ is_valid g = false) as Hinvalid.
  { exists Bowtie. split; [right; by left | reflexivity]. }
  split; [exact Hinvalid |].
  exact (kept_rows_keep_first_verdict [Square; Bowtie] Hinvalid).
Defined.

(** Two features, one unrepairable: the event counts one. *)
Lemma total_features_and_unrepairable_witness :
  ∃ outs vars,
    process env (Some broker) "a.geojson" [Square; Broken] = (outs, Return vars) ∧
    total_features (event vars) = length (gdf vars) ∧
    total_features (event vars)
      + length (default [] (rp_still_invalid (repaired vars)))
      = length [Square; Broken] ∧
    (total_features (event vars) = length [Square; Broken] ↔
       default [] (rp_still_invalid (repaired vars)) = []).
Proof.
  destruct (process env (Some broker) "a.geojson" [Square; Broken])
    as [outs [vars | e]] eqn:Hrun.
  - exists outs, vars. split; [reflexivity |].
    exact (total_features_and_unrepairable env (Some broker) "a.geojson"
             [Square; Broken] outs vars Hrun).
  - vm_compute in Hrun. discriminate Hrun.
Defined.

(** A point and a line next to a bowtie: different shapes, equal buffers. *)
Lemma duplicates_compare_repaired_witness :
  (∃ g, g ∈ [Bowtie; Dot; Path] ∧ is_valid g = false) ∧
  [Bowtie; Dot; Path] !! 1 = Some Dot ∧ [Bowtie; Dot; Path] !! 2 = Some Path ∧
  1 ≠ 2 ∧ Dot ≠ Path ∧ buffer Dot 0 = buffer Path 0 ∧
  is_valid (buffer Dot 0) = true ∧
  ∃ outs rp ri rj,
    repair (validate [Bowtie; Dot; Path]) = (outs, Return rp) ∧
    index ri = 1 ∧ index rj = 2 ∧
    geometry ri = buffer Dot 0 ∧ geometry rj = buffer Dot 0 ∧
    ri ∈ Pandas.bool_index (rp_gdf rp) (Pandas.duplicated (geometry <$> rp_gdf rp)) ∧
    rj ∈ Pandas.bool_index (rp_gdf rp) (Pandas.duplicated (geometry <$> rp_gdf rp)).
Proof.
  assert (∃ g, g ∈ [Bowtie; Dot; Path] ∧ is_valid g = false) as Hinvalid.
  { exists Bowtie. split; [by left | reflexivity]. }
  assert (1 ≠ 2) as Hne by discriminate.
  split; [exact Hinvalid |]. split; [reflexivity |]. split; [reflexivity |].
  split; [exact Hne |]. split; [discriminate |]. split; [reflexivity |].
  split; [reflexivity |].
  exact (duplicates_compare_repaired [Bowtie; Dot; Path] 1 2 Dot Path
           Hinvalid eq_refl eq_refl Hne eq_refl eq_refl).
Defined.

(** Two tasks: the first is finished and read, the second still runs. *)
Lemma validation_pool_finishes_witness :
  nsteps (Executor.step parallel_validate [Square; Bowtie]) 2
    (Executor.submitted [Square; Bowtie])
    (Executor.Pool [Some (parallel_validate Square); None]
                   [parallel_validate Square]) ∧
  2 = pool_work (Executor.Pool [Some (parallel_validate Square); None]
                               [parallel_validate Square]) ∧
  2 ≤ 2 * length [Square; Bowtie] ∧
  (¬ Executor.drained [Square; Bowtie]
       (Executor.Pool [Some (parallel_validate Square); None]
                      [parallel_validate Square]) →
   ∃ q, Executor.step parallel_validate [Square; Bowtie]
          (Executor.Pool [Some (parallel_validate Square); None]
                         [parallel_validate Square]) q) ∧
  (Executor.drained [Square; Bowtie]
     (Executor.Pool [Some (parallel_validate Square); None]
                    [parallel_validate Square]) →
   Executor.collected
     (Executor.Pool [Some (parallel_validate Square); None]
                    [parallel_validate Square])
     = Executor.map parallel_validate [Square; Bowtie]).
Proof.
  assert (nsteps (Executor.step parallel_validate [Square; Bowtie]) 2
            (Executor.submitted [Square; Bowtie])
            (Executor.Pool [Some (parallel_validate Square); None]
                           [parallel_validate Square])) as Hrun.
  { eapply nsteps_l.
    - apply (Executor.step_complete parallel_validate [Square; Bowtie]
               0 Square [None; None] []); reflexivity.
    - eapply nsteps_l; [| apply nsteps_O].
      apply (Executor.step_collect parallel_validate [Square; Bowtie]
               (parallel_validate Square)
               [Some (parallel_validate Square); None] []).
      reflexivity. }
  split; [exact Hrun |].
  exact (validation_pool_finishes parallel_validate [Square; Bowtie] 2 _ Hrun).
Defined.


Example comment_lost_when_map_fails :
  session_after no_map (Some broker)
    (Some {| name := "a.geojson"; read_file := Return [Square] |})
    {| version_time := "10:00"; comment := "looks good"; submit := true;
       comment_time := "10:01" |}
    {| versions := None; comments := None |}
  = {| versions := Some [("a.geojson", "10:00")]; comments := None |}.
Proof. vm_compute. reflexivity. Qed.

Example comment_stored_when_run_completes :
  session_after env None
    (Some {| name := "a.geojson"; read_file := Return [Square] |})
    {| version_time := "10:00"; comment := "looks good"; submit := true;
       comment_time := "10:01" |}
    {| versions := Some [("old.geojson", "09:00")]; comments := None |}
  = {| versions := Some [("old.geojson", "09:00"); ("a.geojson", "10:00")];
       comments := Some [("looks good", "10:01")] |}.
Proof. vm_compute. reflexivity. Qed.
End more_runs.

(** ** The session state *)

Section session_facts.
Context `{Shapely Geom}.
Implicit Types (env : Env Geom) (producer : option Producer) (s : Session).

Lemma versions_comment_box w s : versions (comment_box w s) = versions s.
Proof. destruct s as [vs [cs |]]; unfold comment_box; by destruct (submit w). Qed.

Lemma versions_session_after env producer file w s :
  versions (session_after env producer file w s) =
    Some (default [] (versions s)
          ++ match file with
             | Some f => match read_file f with
                         | Return _ => [(name f, version_time w)]
                         | Raise _ => []
                         end
             | None => []
             end).
Proof.
  unfold session_after.
  destruct file as [f |].
  - destruct (read_file f) as [geoms | e].
    + destruct (outcome (process env producer (name f) geoms));
        rewrite ?versions_comment_box; by destruct s as [[vs |] cs].
    + destruct s as [[vs |] cs]; simpl; by rewrite ?app_nil_r.
  - destruct s as [[vs |] cs]; simpl; by rewrite ?app_nil_r.
Qed.

Lemma map_failure_raises env producer file_name geoms e :
  rp_gdf_of (repair (validate geoms)) ≠ [] →
  render_map env (geometry <$> rp_gdf_of (repair (validate geoms))) = Raise e →
  outcome (process env producer file_name geoms) = Raise e.
Proof.
  destruct (repair_returns (validate geoms)) as (o1 & rp & Hrp).
  rewrite (rp_gdf_of_repair _ _ _ Hrp). intros Hkept Hmap.
  apply (process_raises _ _ _ _ _ _ [] _ Hrp).
  by apply visualize_failed.
Qed.

(** X12. The version history only grows: a run keeps every earlier entry
    and adds exactly one, the name of the upload with the time of the run,
    as soon as the file could be read, also when the processing that
    follows fails; without a file, or with one that cannot be read, it adds
    none. Since every interaction runs the script again, the history
    gets one more entry for the same upload per interaction. *)
Theorem version_history_grows env producer file w s :
  (∃ vs, versions (session_after env producer file w s) = Some vs ∧
         default [] (versions s) `prefix_of` vs) ∧
  (∀ f geoms, file = Some f → read_file f = Return geoms →
     versions (session_after env producer file w s)
       = Some (default [] (versions s) ++ [(name f, version_time w)])) ∧
  (file = None ∨ (∃ f e, file = Some f ∧ read_file f = Raise e) →
     versions (session_after env producer file w s)
       = Some (default [] (versions s))) ∧
  (∀ f geoms ws, file = Some f → read_file f = Return geoms →
     default [] (versions (session_after_all env producer file ws s))
       = default [] (versions s) ++ ((λ w, (name f, version_time w)) <$> ws)).
Proof.
  split_and!.
  - rewrite versions_session_after. eexists. split; [done |].
    by apply prefix_app_r.
  - intros f geoms -> Hread. by rewrite versions_session_after, Hread.
  - intros [-> | (f & e & -> & Hread)]; rewrite versions_session_after.
    + by rewrite app_nil_r.
    + by rewrite Hread, app_nil_r.
  - intros f geoms ws -> Hread. unfold session_after_all.
    revert s. induction ws as [| w' ws IH]; intros s; cbn [foldl].
    + by rewrite app_nil_r.
    + rewrite IH, versions_session_after, Hread, fmap_cons.
      cbn [default]. symmetry. apply (app_assoc _ [_] _).
Qed.

(** X13. A comment is stored only by a run that gets past the map: when
    the run completes, the comments exist afterwards and the typed comment
    is appended with its time exactly when the button was pressed; when
    there is no file, the file cannot be read or the map fails, the
    comments are left as they were, pressed button or not. *)
Theorem comment_needs_completed_run env producer file w s :
  (∀ f geoms vars, file = Some f → read_file f = Return geoms →
     outcome (process env producer (name f) geoms) = Return vars →
     comments (session_after env producer file w s)
       = Some (default [] (comments s)
               ++ if submit w then [(comment w, comment_time w)] else [])) ∧
  (file = None ∨
   (∃ f e, file = Some f ∧ read_file f = Raise e) ∨
   (∃ f geoms e, file = Some f ∧ read_file f = Return geoms ∧
      rp_gdf_of (repair (validate geoms)) ≠ [] ∧
      render_map env (geometry <$> rp_gdf_of (repair (validate geoms)))
        = Raise e) →
   comments (session_after env producer file w s) = comments s).
Proof.
  split.
  - intros f geoms vars -> Hread Hrun. unfold session_after.
    rewrite Hread, Hrun. unfold comment_box.
    destruct s as [[vs |] [cs |]], (submit w); simpl; by rewrite ?app_nil_r.
  - intros [-> | [(f & e & -> & Hread) | (f & geoms & e & -> & Hread & Hkept & Hmap)]];
      unfold session_after.
    + by destruct s as [[vs |] cs].
    + rewrite Hread. by destruct s as [[vs |] cs].
    + rewrite Hread.
      rewrite (map_failure_raises env producer (name f) geoms e Hkept Hmap).
      by destruct s as [[vs |] cs].
Qed.
End session_facts.
